(** * Azure Service Operator: type-graph test-case injection and test recording helpers

    A shallow embedding of
    - the [jsonTestCases] pipeline stage of the code generator
      ([InjectJsonSerializationTests], [AddTestTo] and the two visitor
      handlers of package [pipeline]), and
    - the recording helpers of package [testcommon]
      ([hideDates], [hideSSHKeys], [hideRecordingData], [MakeARMId] and
      [createRecorder] with the matcher and the save filter it installs),
    followed by the properties established about them. *)

From Stdlib Require Import NArith Ascii String.
From stdpp Require Import base gmap strings list fin_maps.

Set Warnings "-register-all".

(** ** Go results

    A Go call that returns [(T, error)] either yields a value, yields an
    error, or panics. *)

Inductive res (E A : Type) : Type :=
| Ok (a : A)
| Err (e : E)
| Panic (msg : string).
Arguments Ok {E A} a.
Arguments Err {E A} e.
Arguments Panic {E A} msg.

(** A Go block without result error either completes or panics. *)

Inductive run (A : Type) : Type :=
| Done (a : A)
| Panicked (msg : string).
Arguments Done {A} a.
Arguments Panicked {A} msg.

(** * Package astmodel *)

Module astmodel.

(** Modelled from the spec: [astmodel.TypeName], the Identifier of section 3,
    a qualified name made of a namespace and a local name. *)
Record TypeName : Type := MakeTypeName {
  PackageReference : string;
  name : string
}.

#[global] Instance TypeName_eq_dec : EqDecision TypeName.
Proof. solve_decision. Defined.

#[global] Instance TypeName_countable : Countable TypeName.
Proof.
  refine (inj_countable' (fun n => (PackageReference n, name n))
                         (fun p => MakeTypeName p.1 p.2) _).
  by intros [].
Defined.

(** The [error] values that flow through the stage.  [errorString] is an
    error raised at one node of a traversal; [visitFailed] is the per-item
    error of section 7 (offending Identifier and cause); [aggregate] is the
    value built by [kerrors.NewAggregate]. *)
Inductive error : Type :=
| errorString (msg : string)
| visitFailed (id : TypeName) (cause : error)
| aggregate (errs : list error).

(** The dynamic type of the [interface{}] context handed to the handlers. *)
Inductive iface : Type :=
| ifaceTypeName (n : TypeName)
| ifaceString (s : string)
| ifaceNil.

Section Types.

(** [testcases.TestCase]: the test-case descriptions attached to Objects and
    Resources.  Their representation is not needed: it is a parameter. *)
Context {TestCase : Type}.

(** Modelled from the spec: the closed set of type shapes of section 3.
    Objects and Resources carry the test-cases attached to them. *)
Inductive Type_ : Type :=
| PrimitiveType (kind : string)
| ObjectType (properties : list Property) (testcases : list TestCase)
| ResourceType (spec status : Type_) (testcases : list TestCase)
| EnumType (base : string) (values : list string)
| MapType (key : string) (value : Type_)
| ArrayType (element : Type_)
| OptionalType (inner : Type_)
| FlaggedType (inner : Type_) (flag : string)
| TypeNameRef (target : TypeName)
with Property : Type :=
| MakeProperty (propertyName : string) (required : bool) (propertyType : Type_).

(** Modelled from the spec: [WithTestCase] returns a copy of the Object or
    Resource that carries the original content plus the new test-case. *)
Definition WithTestCase (t : Type_) (testcase : TestCase) : Type_ :=
  match t with
  | ObjectType ps tcs => ObjectType ps (tcs ++ [testcase])
  | ResourceType sp st tcs => ResourceType sp st (tcs ++ [testcase])
  | _ => t
  end.

(** Modelled from the spec: a Type Declaration pairs an Identifier with a
    Type. *)
Record TypeDefinition : Type := MakeTypeDefinition {
  Name : TypeName;
  Type' : Type_
}.

Definition WithType (def : TypeDefinition) (t : Type_) : TypeDefinition :=
  {| Name := Name def; Type' := t |}.

(** A handler receives the node and the context and returns [(Type, error)]. *)
Definition handler : Type := Type_ -> iface -> res error Type_.

(** Modelled from the spec: [TypeVisitorBuilder], a record of optional
    per-variant handlers; [None] is a nil field and selects the default
    structural recursion of section 4.2. *)
Record TypeVisitorBuilder : Type := {
  VisitTypeName : option handler;
  VisitPrimitive : option handler;
  VisitObjectType : option handler;
  VisitResourceType : option handler;
  VisitEnumType : option handler;
  VisitMapType : option handler;
  VisitArrayType : option handler;
  VisitOptionalType : option handler;
  VisitFlaggedType : option handler
}.

Record TypeVisitor : Type := { handlers : TypeVisitorBuilder }.

Definition Build (b : TypeVisitorBuilder) : TypeVisitor := {| handlers := b |}.

(** Sequencing of [(T, error)] results: the first error or panic aborts. *)
Definition bind {E A B : Type} (r : res E A) (k : A -> res E B) : res E B :=
  match r with
  | Ok a => k a
  | Err e => Err e
  | Panic m => Panic m
  end.

(** Modelled from the spec: [TypeVisitor.Visit] (section 4.2).  A supplied
    handler replaces the traversal of its variant; otherwise the same shape is
    rebuilt from the visited children, Primitive, Enum and Reference being
    leaves.  An error raised at a node aborts the traversal of the
    Declaration. *)
Fixpoint Visit (tv : TypeVisitor) (t : Type_) (ctx : iface) {struct t}
  : res error Type_ :=
  match t with
  | TypeNameRef _ =>
      match VisitTypeName (handlers tv) with
      | Some h => h t ctx
      | None => Ok t
      end
  | PrimitiveType _ =>
      match VisitPrimitive (handlers tv) with
      | Some h => h t ctx
      | None => Ok t
      end
  | EnumType _ _ =>
      match VisitEnumType (handlers tv) with
      | Some h => h t ctx
      | None => Ok t
      end
  | ObjectType ps tcs =>
      match VisitObjectType (handlers tv) with
      | Some h => h t ctx
      | None =>
          bind ((fix visitProperties (l : list Property) : res error (list Property) :=
                   match l with
                   | [] => Ok []
                   | MakeProperty n r pt :: l' =>
                       bind (Visit tv pt ctx) (fun pt' =>
                       bind (visitProperties l') (fun l'' =>
                       Ok (MakeProperty n r pt' :: l'')))
                   end) ps)
               (fun ps' => Ok (ObjectType ps' tcs))
      end
  | ResourceType sp st tcs =>
      match VisitResourceType (handlers tv) with
      | Some h => h t ctx
      | None =>
          bind (Visit tv sp ctx) (fun sp' =>
          bind (Visit tv st ctx) (fun st' =>
          Ok (ResourceType sp' st' tcs)))
      end
  | MapType k v =>
      match VisitMapType (handlers tv) with
      | Some h => h t ctx
      | None => bind (Visit tv v ctx) (fun v' => Ok (MapType k v'))
      end
  | ArrayType e =>
      match VisitArrayType (handlers tv) with
      | Some h => h t ctx
      | None => bind (Visit tv e ctx) (fun e' => Ok (ArrayType e'))
      end
  | OptionalType i =>
      match VisitOptionalType (handlers tv) with
      | Some h => h t ctx
      | None => bind (Visit tv i ctx) (fun i' => Ok (OptionalType i'))
      end
  | FlaggedType i f =>
      match VisitFlaggedType (handlers tv) with
      | Some h => h t ctx
      | None => bind (Visit tv i ctx) (fun i' => Ok (FlaggedType i' f))
      end
  end.

(** Modelled from the spec: [TypeVisitor.VisitDefinition] traverses the type
    of a Declaration and returns a new Declaration under the same
    Identifier; a failure becomes the per-item error of section 7, which
    carries the offending Identifier and the cause. *)
Definition VisitDefinition (tv : TypeVisitor) (td : TypeDefinition) (ctx : iface)
  : res error TypeDefinition :=
  match Visit tv (Type' td) ctx with
  | Ok t => Ok (WithType td t)
  | Err cause => Err (visitFailed (Name td) cause)
  | Panic m => Panic m
  end.

End Types.

Arguments Type_ : clear implicits.
Arguments Property : clear implicits.
Arguments TypeDefinition : clear implicits.
Arguments handler : clear implicits.
Arguments TypeVisitorBuilder : clear implicits.
Arguments TypeVisitor : clear implicits.

(** [astmodel.Types]: the Type Graph, a Go map from Identifier to
    Declaration. *)
Abbreviation Types TestCase := (gmap TypeName (TypeDefinition TestCase)).

(** Each Declaration is stored under its own Identifier. *)
Definition wellFormed {TestCase : Type} (types : Types TestCase) : Prop :=
  forall k d, types !! k = Some d -> Name d = k.

(** [for _, d := range types]: Go leaves the order in which [range] walks a
    map unspecified.  The order taken by one run is a list [order] of the
    Declarations of the map, each exactly once. *)
Definition rangeOrder {TestCase : Type} (types : Types TestCase)
    (order : list (TypeDefinition TestCase)) : Prop :=
  order ≡ₚ (map_to_list types).*2.

(** [kerrors.NewAggregate] (k8s.io/apimachinery) wraps a non-empty list of
    errors into a single error and returns nil for an empty list. *)
Definition NewAggregate (errs : list error) : option error :=
  match errs with
  | [] => None
  | _ => Some (aggregate errs)
  end.

End astmodel.

(** * Package pipeline *)

Module pipeline.
Import astmodel.

(** Locations of map objects, and the store that holds them. *)
Abbreviation loc := positive.
Abbreviation store TestCase := (gmap loc (Types TestCase)).

(** [context.Context] as far as a stage can observe it: whether the
    cancellation signal has fired ([ctx.Err() != nil]). *)
Record Context : Type := { cancelled : bool }.

Section Stage.

Context {TestCase IdentifierFactory : Type}.

(** [testcases.NewJSONSerializationTestCase(name, container, idFactory)]:
    the constructor of the round-trip test-case description, declared in
    package [testcases]; it is a parameter. *)
Context (NewJSONSerializationTestCase :
           TypeName -> Type_ TestCase -> IdentifierFactory -> TestCase).

Record objectSerializationTestCaseFactory : Type := {
  visitor : TypeVisitor TestCase;
  idFactory : IdentifierFactory
}.

(** [name := ctx.(astmodel.TypeName)] panics unless the context holds a
    [TypeName]. *)
Definition injectTestCaseIntoResource (idf : IdentifierFactory)
    (resource : Type_ TestCase) (ctx : iface) : res error (Type_ TestCase) :=
  match ctx with
  | ifaceTypeName name =>
      let testcase := NewJSONSerializationTestCase name resource idf in
      let result := WithTestCase resource testcase in
      Ok result
  | _ => Panic "interface conversion: interface {} is not astmodel.TypeName"
  end.

Definition injectTestCaseIntoObject (idf : IdentifierFactory)
    (objectType : Type_ TestCase) (ctx : iface) : res error (Type_ TestCase) :=
  match ctx with
  | ifaceTypeName name =>
      let testcase := NewJSONSerializationTestCase name objectType idf in
      let result := WithTestCase objectType testcase in
      Ok result
  | _ => Panic "interface conversion: interface {} is not astmodel.TypeName"
  end.

Definition makeObjectSerializationTestCaseFactory (idf : IdentifierFactory)
  : objectSerializationTestCaseFactory :=
  {| idFactory := idf;
     visitor := Build {| VisitTypeName := None;
                         VisitPrimitive := None;
                         VisitObjectType := Some (injectTestCaseIntoObject idf);
                         VisitResourceType := Some (injectTestCaseIntoResource idf);
                         VisitEnumType := None;
                         VisitMapType := None;
                         VisitArrayType := None;
                         VisitOptionalType := None;
                         VisitFlaggedType := None |} |}.

Definition AddTestTo (s : objectSerializationTestCaseFactory)
    (def : TypeDefinition TestCase) : res error (TypeDefinition TestCase) :=
  VisitDefinition (visitor s) def (ifaceTypeName (Name def)).

(** One iteration of the [range] loop, on the local variables [result] and
    [errs]. *)
Definition loopBody (s : objectSerializationTestCaseFactory)
    (result : Types TestCase) (errs : list error) (d : TypeDefinition TestCase)
  : run (Types TestCase * list error) :=
  match AddTestTo s d with
  | Err err => Done (result, errs ++ [err])
  | Ok updated => Done (<[Name updated := updated]> result, errs)
  | Panic m => Panicked m
  end.

Fixpoint rangeLoop (s : objectSerializationTestCaseFactory)
    (result : Types TestCase) (errs : list error)
    (order : list (TypeDefinition TestCase))
  : run (Types TestCase * list error) :=
  match order with
  | [] => Done (result, errs)
  | d :: rest =>
      match loopBody s result errs d with
      | Done st => rangeLoop s st.1 st.2 rest
      | Panicked m => Panicked m
      end
  end.

(** What a call of the stage function does: it returns the two results
    [(astmodel.Types, error)], nil being [None], or it panics. *)
Inductive outcome : Type :=
| Returns (graph : option (Types TestCase)) (err : option error)
| Panics (msg : string).

(** The body of the stage function for a given factory.  [order] is the
    order in which this run ranges over [types]. *)
Definition runStage (s : objectSerializationTestCaseFactory)
    (ctx : Context) (types : Types TestCase)
    (order : list (TypeDefinition TestCase)) : outcome :=
  match rangeLoop s ∅ [] order with
  | Done (result, errs) =>
      if bool_decide (0 < length errs)
      then Returns None (NewAggregate errs)
      else Returns (Some result) None
  | Panicked m => Panics m
  end.

(** Modelled from the spec: a Stage has a name, a description and one
    operation from a context and a Type Graph to a Type Graph or an error
    ([MakeLegacyStage] builds it from these three). *)
Record Stage : Type := MakeLegacyStage {
  stageName : string;
  description : string;
  action : Context -> Types TestCase -> list (TypeDefinition TestCase) -> outcome
}.

Definition InjectJsonSerializationTests (idf : IdentifierFactory) : Stage :=
  MakeLegacyStage
    "jsonTestCases"
    "Add test cases to verify JSON serialization"
    (fun ctx types order =>
       let factory := makeObjectSerializationTestCaseFactory idf in
       runStage factory ctx types order).

(** *** The stage on the store

    Go maps are references.  A store maps locations to map objects; the
    argument [types] of the stage function is a location, [make] allocates a
    location that is not in use, and [result[k] = v] updates the object at a
    location. *)

Definition make (h : store TestCase) : loc * store TestCase :=
  let l := fresh (dom h) in (l, <[l := ∅]> h).

Definition mapassign (l : loc) (k : TypeName) (v : TypeDefinition TestCase)
    (h : store TestCase) : store TestCase :=
  alter (fun m => <[k := v]> m) l h.

Fixpoint rangeLoopStore (s : objectSerializationTestCaseFactory)
    (result : loc) (h : store TestCase) (errs : list error)
    (order : list (TypeDefinition TestCase))
  : run (store TestCase * list error) :=
  match order with
  | [] => Done (h, errs)
  | d :: rest =>
      match AddTestTo s d with
      | Err err => rangeLoopStore s result h (errs ++ [err]) rest
      | Ok updated =>
          rangeLoopStore s result (mapassign result (Name updated) updated h) errs rest
      | Panic m => Panicked m
      end
  end.

Inductive outcomeStore : Type :=
| ReturnsStore (h : store TestCase) (graph : option loc) (err : option error)
| PanicsStore (msg : string).

Definition runStageStore (s : objectSerializationTestCaseFactory)
    (ctx : Context) (h : store TestCase) (types : loc)
    (order : list (TypeDefinition TestCase)) : outcomeStore :=
  let '(result, h1) := make h in
  match rangeLoopStore s result h1 [] order with
  | Done (h2, errs) =>
      if bool_decide (0 < length errs)
      then ReturnsStore h2 None (NewAggregate errs)
      else ReturnsStore h2 (Some result) None
  | Panicked m => PanicsStore m
  end.

(** *** Vocabulary of the statements *)

(** The error of a failed attempt, and the Declaration of a successful
    one. *)
Definition failure {A : Type} (r : res error A) : option error :=
  match r with
  | Err e => Some e
  | _ => None
  end.

Definition success {A : Type} (r : res error A) : option A :=
  match r with
  | Ok a => Some a
  | _ => None
  end.

(** The per-item errors of the Declarations of [order], in that order. *)
Definition failures (s : objectSerializationTestCaseFactory)
    (order : list (TypeDefinition TestCase)) : list error :=
  omap (fun d => failure (AddTestTo s d)) order.

(** The updated Declarations of [order], in that order. *)
Definition updates (s : objectSerializationTestCaseFactory)
    (order : list (TypeDefinition TestCase)) : list (TypeDefinition TestCase) :=
  omap (fun d => success (AddTestTo s d)) order.

(** The number of Declarations of the graph that fail. *)
Definition failCount (s : objectSerializationTestCaseFactory)
    (types : Types TestCase) : nat :=
  length (failures s (map_to_list types).*2).

(** No attempt panics. *)
Definition noPanic (s : objectSerializationTestCaseFactory)
    (order : list (TypeDefinition TestCase)) : Prop :=
  Forall (fun d => forall m, AddTestTo s d <> Panic m) order.

Definition isObjectOrResource (t : Type_ TestCase) : bool :=
  match t with
  | ObjectType _ _ | ResourceType _ _ _ => true
  | _ => false
  end.

(** An Object or Resource is met when descending from [t] through Map,
    Array, Optional and Flagged nodes only. *)
Fixpoint reachesObjectOrResource (t : Type_ TestCase) : bool :=
  match t with
  | ObjectType _ _ | ResourceType _ _ _ => true
  | MapType _ v => reachesObjectOrResource v
  | ArrayType e => reachesObjectOrResource e
  | OptionalType i => reachesObjectOrResource i
  | FlaggedType i _ => reachesObjectOrResource i
  | _ => false
  end.

(** The type obtained from [t] by attaching the test-case built for [name]
    to every such Object or Resource. *)
Fixpoint injected (idf : IdentifierFactory) (name : TypeName)
    (t : Type_ TestCase) : Type_ TestCase :=
  match t with
  | ObjectType _ _ | ResourceType _ _ _ =>
      WithTestCase t (NewJSONSerializationTestCase name t idf)
  | MapType k v => MapType k (injected idf name v)
  | ArrayType e => ArrayType (injected idf name e)
  | OptionalType i => OptionalType (injected idf name i)
  | FlaggedType i f => FlaggedType (injected idf name i) f
  | _ => t
  end.

Definition withTests (idf : IdentifierFactory) (d : TypeDefinition TestCase)
  : TypeDefinition TestCase :=
  WithType d (injected idf (Name d) (Type' d)).

End Stage.

End pipeline.

(** * Package testcommon *)

Module testcommon.

(** A Go string is modelled by the sequence of its runes (code points), the
    units on which package [regexp] works. *)
Abbreviation rune := N.
Abbreviation gostring := (list rune).

Definition rn (a : ascii) : rune := N_of_ascii a.

(** The rune sequence of an ASCII literal. *)
Fixpoint str (s : string) : gostring :=
  match s with
  | EmptyString => []
  | String a s' => rn a :: str s'
  end.

(** ** Package regexp, as far as the two patterns need it *)

(** One-character items. *)
Inductive atom : Type :=
| Lit (c : rune)                      (* a literal character *)
| AnyChar                             (* [.]: any character but newline *)
| Class (ranges : list (rune * rune)) (* [[a-b...]] and [\d] *).

(** Patterns: concatenation, greedy [?], greedy [+] of an item and
    counted repetition [{n}]. *)
Inductive regex : Type :=
| Atom (a : atom)
| Seq (r1 r2 : regex)
| Opt (r : regex)
| Plus (a : atom)
| Repeat (n : nat) (r : regex).

Definition inRange (c : rune) (p : rune * rune) : bool :=
  (N.leb p.1 c && N.leb c p.2)%bool.

Definition atomMatch (a : atom) (c : rune) : bool :=
  match a with
  | Lit c' => N.eqb c c'
  | AnyChar => negb (N.eqb c 10)
  | Class ranges => existsb (inRange c) ranges
  end.

(** Leftmost-first (backtracking) matching at the start of [s]: [n] counts
    the characters consumed so far and [k] is tried on what remains; a greedy
    operator first tries to consume, and gives way only when what follows
    cannot match. *)
Fixpoint matchRe (r : regex) (s : gostring) (n : nat)
    (k : gostring -> nat -> option nat) {struct r} : option nat :=
  match r with
  | Atom a =>
      match s with
      | c :: s' => if atomMatch a c then k s' (S n) else None
      | [] => None
      end
  | Seq r1 r2 => matchRe r1 s n (fun s' n' => matchRe r2 s' n' k)
  | Opt r1 =>
      match matchRe r1 s n k with
      | Some m => Some m
      | None => k s n
      end
  | Plus a =>
      (fix more (s : gostring) (n : nat) {struct s} : option nat :=
         match s with
         | c :: s' =>
             if atomMatch a c then
               match more s' (S n) with
               | Some m => Some m
               | None => k s' (S n)
               end
             else None
         | [] => None
         end) s n
  | Repeat cnt r1 =>
      (fix rep (cnt : nat) (s : gostring) (n : nat) {struct cnt} : option nat :=
         match cnt with
         | O => k s n
         | S cnt' => matchRe r1 s n (fun s' n' => rep cnt' s' n')
         end) cnt s n
  end.

(** The length of the match of [re] that starts at the first character of
    [s], if there is one. *)
Definition matchLen (re : regex) (s : gostring) : option nat :=
  matchRe re s 0 (fun _ n => Some n).

(** [re.ReplaceAllLiteralString(src, repl)] for a pattern that does not match
    the empty string: scanning from the left, the text of each match is
    replaced by [repl] and the search resumes after the match.  [skip] is the
    number of characters of the current match still to be passed over. *)
Fixpoint replaceAllFrom (re : regex) (repl : gostring) (skip : nat)
    (src : gostring) {struct src} : gostring :=
  match src with
  | [] => []
  | c :: src' =>
      match skip with
      | S skip' => replaceAllFrom re repl skip' src'
      | O =>
          match matchLen re src with
          | Some (S m) => repl ++ replaceAllFrom re repl m src'
          | _ => c :: replaceAllFrom re repl O src'
          end
      end
  end.

Definition ReplaceAllLiteralString (re : regex) (src repl : gostring) : gostring :=
  replaceAllFrom re repl 0 src.

Definition digit : atom := Eval cbv in Class [(rn "0", rn "9")].

(** [\d{4}-\d{2}-\d{2}T\d{2}:\d{2}:\d{2}(.\d+)?Z] *)
Definition dateMatcher : regex := Eval cbv in
  Seq (Repeat 4 (Atom digit)) (Seq (Atom (Lit (rn "-")))
  (Seq (Repeat 2 (Atom digit)) (Seq (Atom (Lit (rn "-")))
  (Seq (Repeat 2 (Atom digit)) (Seq (Atom (Lit (rn "T")))
  (Seq (Repeat 2 (Atom digit)) (Seq (Atom (Lit (rn ":")))
  (Seq (Repeat 2 (Atom digit)) (Seq (Atom (Lit (rn ":")))
  (Seq (Repeat 2 (Atom digit))
  (Seq (Opt (Seq (Atom AnyChar) (Plus digit)))
       (Atom (Lit (rn "Z")))))))))))))).

(** [ssh-rsa [0-9a-zA-Z+/=]+] *)
Definition sshKeyMatcher : regex := Eval cbv in
  Seq (Atom (Lit (rn "s"))) (Seq (Atom (Lit (rn "s"))) (Seq (Atom (Lit (rn "h")))
  (Seq (Atom (Lit (rn "-")))
  (Seq (Atom (Lit (rn "r"))) (Seq (Atom (Lit (rn "s"))) (Seq (Atom (Lit (rn "a")))
  (Seq (Atom (Lit (rn " ")))
       (Plus (Class [(rn "0", rn "9"); (rn "a", rn "z"); (rn "A", rn "Z");
                     (rn "+", rn "+"); (rn "/", rn "/"); (rn "=", rn "=")]))))))))).

Definition fakeDate : gostring := Eval cbv in str "2001-02-03T04:05:06Z".
Definition fakeKey : gostring := Eval cbv in str "ssh-rsa {KEY}".

Definition hideDates (s : gostring) : gostring :=
  ReplaceAllLiteralString dateMatcher s fakeDate.

Definition hideSSHKeys (s : gostring) : gostring :=
  ReplaceAllLiteralString sshKeyMatcher s fakeKey.

Definition hideRecordingData (s : gostring) : gostring :=
  let result := hideDates s in
  let result := hideSSHKeys result in
  result.

(** ** Package strings *)

Fixpoint HasPrefix (s prefix : gostring) {struct prefix} : bool :=
  match prefix, s with
  | [], _ => true
  | p :: prefix', c :: s' => (N.eqb c p && HasPrefix s' prefix')%bool
  | _ :: _, [] => false
  end.

Fixpoint Contains (s substr : gostring) : bool :=
  (HasPrefix s substr ||
   match s with
   | [] => false
   | _ :: s' => Contains s' substr
   end)%bool.

(** [strings.ReplaceAll(s, old, new)] for a non-empty [old]: the
    non-overlapping instances of [old], found from the left, are replaced. *)
Fixpoint replaceFrom (old new : gostring) (skip : nat) (s : gostring)
    {struct s} : gostring :=
  match s with
  | [] => []
  | c :: s' =>
      match skip with
      | S skip' => replaceFrom old new skip' s'
      | O =>
          if HasPrefix s old
          then new ++ replaceFrom old new (length old - 1) s'
          else c :: replaceFrom old new O s'
      end
  end.

(** With an empty [old], [new] is inserted before every rune and at the
    end. *)
Fixpoint intersperseAll (new s : gostring) : gostring :=
  match s with
  | [] => new
  | c :: s' => new ++ c :: intersperseAll new s'
  end.

Definition ReplaceAll (s old new : gostring) : gostring :=
  match old with
  | [] => intersperseAll new s
  | _ :: _ => replaceFrom old new 0 s
  end.

Fixpoint Join (elems : list gostring) (sep : gostring) : gostring :=
  match elems with
  | [] => []
  | [e] => e
  | e :: rest => e ++ sep ++ Join rest sep
  end.

(** ** Package fmt: [Sprintf] for a format made of text and [%s] verbs, with
    string operands, one per verb. *)
Fixpoint Sprintf (format : gostring) (args : list gostring) : gostring :=
  match format with
  | [] => []
  | c :: format' =>
      if N.eqb c (rn "%") then
        match format' with
        | v :: format'' =>
            if N.eqb v (rn "s") then
              match args with
              | a :: args' => a ++ Sprintf format'' args'
              | [] => str "%!s(MISSING)" ++ Sprintf format'' []
              end
            else c :: Sprintf format' args
        | [] => str "%!(NOVERB)"
        end
      else c :: Sprintf format' args
  end.

(** ** The test context *)

Record PerTestContext : Type := {
  AzureRegion : gostring;
  RecordReplay : bool;
  AzureSubscription : gostring;
  TestName : gostring
}.

Definition MakeARMId (tc : PerTestContext) (resourceGroup provider : gostring)
    (params : list gostring) : run gostring :=
  if bool_decide (length params = 0) then
    Panicked "At least 2 params must be specified"
  else if bool_decide (length params `mod` 2 ≠ 0) then
    Panicked "ARM Id params must come in resourceKind/name pairs"
  else
    let suffix := Join params (str "/") in
    Done (Sprintf (str "/subscriptions/%s/resourceGroups/%s/providers/%s/%s")
                [AzureSubscription tc; resourceGroup; provider; suffix]).

(** ** The recorder of [createRecorder] *)

(** Go maps and slices are references, and the save filter works on a
    pointer to an interaction.  A store holds the [cassette.Interaction]
    structs, the [http.Header] map objects and the backing arrays of the
    [[]string] values, each under its location. *)
Abbreviation loc := positive.

(** A [[]string]: [sliceLen] cells of a backing array, from [sliceOffset]
    on. *)
Record slice : Type := {
  sliceArray : loc;
  sliceOffset : nat;
  sliceLen : nat
}.

(** [http.Header]: header name to values. *)
Abbreviation Header := (gmap gostring slice).

(** The fields of [cassette.Request] and [cassette.Response] that the
    filter and the matcher read or write.  [Headers] is a reference to a
    map object; a nil map is a location that holds none. *)
Record Request : Type := {
  reqBody : gostring;
  reqURL : gostring;
  reqMethod : gostring;
  reqHeaders : loc
}.

Record Response : Type := {
  respBody : gostring;
  respHeaders : loc
}.

Record Interaction : Type := {
  Request_ : Request;
  Response_ : Response
}.

Record store : Type := {
  interactions : gmap loc Interaction;
  headers : gmap loc Header;
  arrays : gmap loc (list gostring)
}.

(** The cell [j] of the backing array at [a]. *)
Definition cellOf (arrs : gmap loc (list gostring)) (a : loc) (j : nat)
  : option gostring :=
  arrs !! a ≫= (.!! j).

Definition cell (s : store) (a : loc) (j : nat) : option gostring :=
  cellOf (arrays s) a j.

(** [uuid.Nil.String()] *)
Definition uuidNil : gostring :=
  Eval cbv in str "00000000-0000-0000-0000-000000000000".

Definition hideSubID (subscriptionID s : gostring) : gostring :=
  ReplaceAll s subscriptionID uuidNil.

(** [for i := range values { values[i] = hideSubID(values[i]) }] on the
    backing array of [values]: the cells [i], ..., [i + n - 1] are rewritten
    in place.  A slice lies within its backing array. *)
Fixpoint hideSubIDCells (subscriptionID : gostring) (cells : list gostring)
    (i n : nat) : list gostring :=
  match n with
  | O => cells
  | S n' =>
      hideSubIDCells subscriptionID (alter (hideSubID subscriptionID) i cells) (S i) n'
  end.

Definition hideSubIDValues (subscriptionID : gostring) (values : slice)
    (a : gmap loc (list gostring)) : gmap loc (list gostring) :=
  alter (fun cells =>
           hideSubIDCells subscriptionID cells (sliceOffset values) (sliceLen values))
        (sliceArray values) a.

(** [for _, values := range h { ... }] for the map object at [h], none for a
    nil map.  Go leaves the order in which [range] walks a map unspecified;
    [order] is the order of one run. *)
Definition rangeHeaders (h : option Header) (order : list slice) : Prop :=
  order ≡ₚ (map_to_list (default ∅ h)).*2.

Definition hideSubIDHeaders (subscriptionID : gostring) (order : list slice)
    (a : gmap loc (list gostring)) : gmap loc (list gostring) :=
  foldl (fun a values => hideSubIDValues subscriptionID values a) a order.

(** [delete(h, key)] on the map object at [h]; on a nil map it does
    nothing. *)
Definition mapdelete (h : loc) (key : gostring) (hs : gmap loc Header)
  : gmap loc Header :=
  alter (delete key) h hs.

(** The function handed to [r.AddSaveFilter].  It works in place on the
    interaction that [i] points to, on the header maps of that interaction
    and on the backing arrays of their values, and returns nil; a nil [i]
    is dereferenced.  The two loops over the headers walk the maps in the
    order of [map_to_list]: what they leave does not depend on the order
    (lemma [hideSubIDHeaders_order]). *)
Definition saveFilter (subscriptionID : gostring) (i : loc) (s : store) : run store :=
  match interactions s !! i with
  | None => Panicked "invalid memory address or nil pointer dereference"
  | Some it =>
      let req := Request_ it in
      let resp := Response_ it in
      let reqBody' := hideRecordingData (hideSubID subscriptionID (reqBody req)) in
      let respBody' := hideRecordingData (hideSubID subscriptionID (respBody resp)) in
      let reqURL' := hideSubID subscriptionID (reqURL req) in
      let it' := {| Request_ := {| reqBody := reqBody'; reqURL := reqURL';
                                   reqMethod := reqMethod req;
                                   reqHeaders := reqHeaders req |};
                    Response_ := {| respBody := respBody';
                                    respHeaders := respHeaders resp |} |} in
      let a1 := hideSubIDHeaders subscriptionID
                  (map_to_list (default ∅ (headers s !! reqHeaders req))).*2
                  (arrays s) in
      let a2 := hideSubIDHeaders subscriptionID
                  (map_to_list (default ∅ (headers s !! respHeaders resp))).*2
                  a1 in
      (* remove all Authorization headers from stored requests *)
      let h1 := mapdelete (reqHeaders req) (str "Authorization") (headers s) in
      (* remove all request IDs *)
      let h2 := mapdelete (respHeaders resp) (str "X-Ms-Correlation-Request-Id") h1 in
      let h3 := mapdelete (respHeaders resp)
                  (str "X-Ms-Ratelimit-Remaining-Subscription-Reads") h2 in
      let h4 := mapdelete (respHeaders resp)
                  (str "X-Ms-Ratelimit-Remaining-Subscription-Writes") h3 in
      let h5 := mapdelete (respHeaders resp) (str "X-Ms-Request-Id") h4 in
      let h6 := mapdelete (respHeaders resp) (str "X-Ms-Routing-Request-Id") h5 in
      (* don't need these headers and they add to diff churn *)
      let h7 := mapdelete (reqHeaders req) (str "User-Agent") h6 in
      let h8 := mapdelete (respHeaders resp) (str "Date") h7 in
      Done {| interactions := <[i := it']> (interactions s);
              headers := h8;
              arrays := a2 |}
  end.

(** The modes of a go-vcr recorder. *)
Inductive Mode : Type := ModeRecording | ModeReplaying | ModeDisabled.

#[global] Instance Mode_eq_dec : EqDecision Mode.
Proof. solve_decision. Defined.

(** Errors of package [errors]: an error as it was returned, or
    [errors.Wrapf(err, message)]. *)
Inductive wrapped (E : Type) : Type :=
| bare (err : E)
| Wrapf (err : wrapped E) (message : string).
Arguments bare {E} err.
Arguments Wrapf {E} err message.

(** An [io.Reader] over a body: the text it still holds, and the error with
    which reading it fails, if it does. *)
Record reader : Type := {
  pending : gostring;
  failing : option string
}.

(** [b.ReadFrom(r)] on an empty buffer [b]: the content of [b] afterwards,
    or the error. *)
Definition ReadFrom (r : reader) : res string gostring :=
  match failing r with
  | Some err => Err err
  | None => Ok (pending r)
  end.

(** [io.NopCloser(&b)] for a buffer that holds [b]. *)
Definition NopCloser (b : gostring) : reader :=
  {| pending := b; failing := None |}.

(** The fields of [http.Request] that the matcher reads or writes; a nil
    [Body] is [None]. *)
Record HttpRequest : Type := {
  Method : gostring;
  URL : gostring;
  Header_ : loc;
  Body : option reader
}.

(** [cassette.DefaultMatcher] (go-vcr): the methods and the URLs are
    equal. *)
Definition DefaultMatcher (r : HttpRequest) (i : Request) : bool :=
  (bool_decide (Method r = reqMethod i) && bool_decide (URL r = reqURL i))%bool.

(** A save filter works on a pointer to an interaction. *)
Abbreviation Filter := (loc -> store -> run store).

(** [recorder.Recorder] (go-vcr) as far as [createRecorder] uses it: its
    mode, its matcher and its save filters, in the order in which they were
    added. *)
Record Recorder : Type := {
  mode : Mode;
  Matcher : store -> HttpRequest -> Request -> run (bool * HttpRequest);
  SaveFilters : list Filter
}.

Definition SetMatcher (r : Recorder)
    (m : store -> HttpRequest -> Request -> run (bool * HttpRequest)) : Recorder :=
  {| mode := mode r; Matcher := m; SaveFilters := SaveFilters r |}.

Definition AddSaveFilter (r : Recorder) (f : Filter) : Recorder :=
  {| mode := mode r; Matcher := Matcher r; SaveFilters := SaveFilters r ++ [f] |}.



Section Recorder.

(** [COUNT_HEADER] is declared in counting_roundtripper.go and
    [textproto.CanonicalMIMEHeaderKey] in the Go library; both are
    parameters. *)
Context (COUNT_HEADER : gostring).
Context (CanonicalMIMEHeaderKey : gostring -> gostring).

(** [http.Header.Get] on the map object at [h]: the first value stored
    under the canonical form of the key, or the empty string. *)
Definition Get (s : store) (h : loc) (key : gostring) : gostring :=
  match headers s !! h ≫= (.!! CanonicalMIMEHeaderKey key) with
  | Some v =>
      if bool_decide (sliceLen v = 0) then []
      else default [] (cell s (sliceArray v) (sliceOffset v))
  | None => []
  end.

(** The function handed to [r.SetMatcher]: its verdict together with the
    request as it leaves it, or a panic. *)
Definition matcher (s : store) (r : HttpRequest) (i : Request)
  : run (bool * HttpRequest) :=
  if negb (DefaultMatcher r i) then Done (false, r)
  (* verify custom request count header *)
  else if negb (bool_decide (Get s (Header_ r) COUNT_HEADER
                             = Get s (reqHeaders i) COUNT_HEADER))
  then Done (false, r)
  else
    match Body r with
    | None => Done (bool_decide (reqBody i = []), r)
    | Some body =>
        match ReadFrom body with
        | Ok b =>
            let r' := {| Method := Method r; URL := URL r; Header_ := Header_ r;
                         Body := Some (NopCloser b) |} in
            Done ((bool_decide (b = [])
                   || bool_decide (hideRecordingData b = reqBody i))%bool,
                  r')
        | Err err => Panicked err
        | Panic m => Panicked m
        end
    end.

(** [recorder.New], [recorder.NewAsMode] (go-vcr) and [getAuthorizer]
    (declared elsewhere in the package; it reads the environment) are
    parameters; the third argument of [NewAsMode] is the transport, nil
    being [None]. *)
Context {E Authorizer RoundTripper : Type}.
Context (New : gostring -> res E Recorder).
Context (NewAsMode : gostring -> Mode -> option RoundTripper -> res E Recorder).
Context (getAuthorizer : res E (option Authorizer * gostring)).

(** The four results [(authorizer, subscriptionID, r, err)]: an error, or
    the first three. *)
Definition createRecorder (cassetteName : gostring) (recordReplay : bool)
  : res (wrapped E) (option Authorizer * gostring * Recorder) :=
  match (if recordReplay then New cassetteName
         else NewAsMode cassetteName ModeDisabled None) with
  | Panic m => Panic m
  | Err err => Err (Wrapf (bare err) "creating recorder")
  | Ok r =>
      match (if (bool_decide (mode r = ModeRecording)
                 || bool_decide (mode r = ModeDisabled))%bool
             then
               (* if we are recording, we need auth *)
               match getAuthorizer with
               | Ok (authorizer, subscriptionID) => Ok (authorizer, subscriptionID)
               | Err err => Err (bare err)
               | Panic m => Panic m
               end
             else
               (* if we are replaying, we won't need auth
                  and we use a dummy subscription ID *)
               Ok (None, uuidNil)) with
      | Ok (authorizer, subscriptionID) =>
          let r := SetMatcher r matcher in
          let r := AddSaveFilter r (saveFilter subscriptionID) in
          Ok (authorizer, subscriptionID, r)
      | Err err => Err err
      | Panic m => Panic m
      end
  end.

End Recorder.

(** ** Vocabulary of the statements *)

(** One or more digits followed by [Z]. *)
Fixpoint digitsThenZ (s : gostring) : bool :=
  match s with
  | [] => false
  | c :: s' => (atomMatch digit c && (digitsThenZ s' || HasPrefix s' [90%N]))%bool
  end.

(** [P] holds of the text and of each of its suffixes. *)
Fixpoint everywhere (P : gostring -> bool) (x : gostring) : bool :=
  (P x && match x with [] => true | _ :: x' => everywhere P x' end)%bool.

(** A fake date that starts here is not followed by digits and [Z]. *)
Definition notRunOn (y : gostring) : bool :=
  (negb (HasPrefix y fakeDate) || negb (digitsThenZ (drop 20 y)))%bool.

(** No fake date in the text runs on into digits and [Z]. *)
Definition cleanDates (x : gostring) : bool := everywhere notRunOn x.

(** The date pattern with the dot of the fraction escaped,
    [\d{4}-\d{2}-\d{2}T\d{2}:\d{2}:\d{2}(\.\d+)?Z], which matches ISO8601
    datetimes only, and [hideRecordingData] with it; they are not in the
    code and serve for comparison. *)
Definition dateMatcherEscaped : regex := Eval cbv in
  Seq (Repeat 4 (Atom digit)) (Seq (Atom (Lit (rn "-")))
  (Seq (Repeat 2 (Atom digit)) (Seq (Atom (Lit (rn "-")))
  (Seq (Repeat 2 (Atom digit)) (Seq (Atom (Lit (rn "T")))
  (Seq (Repeat 2 (Atom digit)) (Seq (Atom (Lit (rn ":")))
  (Seq (Repeat 2 (Atom digit)) (Seq (Atom (Lit (rn ":")))
  (Seq (Repeat 2 (Atom digit))
  (Seq (Opt (Seq (Atom (Lit (rn "."))) (Plus digit)))
       (Atom (Lit (rn "Z")))))))))))))).

Definition hideRecordingDataEscaped (s : gostring) : gostring :=
  hideSSHKeys (ReplaceAllLiteralString dateMatcherEscaped s fakeDate).

Definition elemb (c : rune) (l : gostring) : bool := existsb (N.eqb c) l.

(** [old] cannot overlap [new]: it is not empty, its first and its last
    character do not occur in [new], and it does not contain [new]. *)
Definition apart (old new : gostring) : bool :=
  match old, last old with
  | c :: _, Some z =>
      (negb (elemb c new) && negb (elemb z new) && negb (Contains old new))%bool
  | _, _ => false
  end.

(** The slice [v] holds the cell [j] of the backing array at [a]. *)
Definition holds (v : slice) (a : loc) (j : nat) : bool :=
  (bool_decide (sliceArray v = a)
   && bool_decide (sliceOffset v <= j < sliceOffset v + sliceLen v))%bool.

(** The number of slices of [order] that hold the cell. *)
Definition rewrites (order : list slice) (a : loc) (j : nat) : nat :=
  length (filter (fun v => holds v a j) order).

(** The values of the headers of the map object at [h], and the number of
    them, among the headers of the request and of the response of [it], that
    hold the cell. *)
Definition headerSlices (s : store) (h : loc) : list slice :=
  (map_to_list (default ∅ (headers s !! h))).*2.

Definition rewritten (s : store) (it : Interaction) (a : loc) (j : nat) : nat :=
  rewrites (headerSlices s (reqHeaders (Request_ it))) a j
  + rewrites (headerSlices s (respHeaders (Response_ it))) a j.


(** The headers that the save filter deletes, each with the map object it
    is deleted from, in the order of the code. *)
Definition deletedHeaders (it : Interaction) : list (loc * gostring) :=
  [(reqHeaders (Request_ it), str "Authorization");
   (respHeaders (Response_ it), str "X-Ms-Correlation-Request-Id");
   (respHeaders (Response_ it), str "X-Ms-Ratelimit-Remaining-Subscription-Reads");
   (respHeaders (Response_ it), str "X-Ms-Ratelimit-Remaining-Subscription-Writes");
   (respHeaders (Response_ it), str "X-Ms-Request-Id");
   (respHeaders (Response_ it), str "X-Ms-Routing-Request-Id");
   (reqHeaders (Request_ it), str "User-Agent");
   (respHeaders (Response_ it), str "Date")].

(** The interaction as the save filter leaves it. *)
Definition saved (sub : gostring) (it : Interaction) : Interaction :=
  {| Request_ :=
       {| reqBody := hideRecordingData (ReplaceAll (reqBody (Request_ it)) sub uuidNil);
          reqURL := ReplaceAll (reqURL (Request_ it)) sub uuidNil;
          reqMethod := reqMethod (Request_ it);
          reqHeaders := reqHeaders (Request_ it) |};
     Response_ :=
       {| respBody := hideRecordingData (ReplaceAll (respBody (Response_ it)) sub uuidNil);
          respHeaders := respHeaders (Response_ it) |} |}.

(** The characters of a key as the key pattern reads it, [[0-9a-zA-Z+/=]],
    and the text before them. *)
Definition keyClass : atom := Eval cbv in
  Class [(rn "0", rn "9"); (rn "a", rn "z"); (rn "A", rn "Z");
         (rn "+", rn "+"); (rn "/", rn "/"); (rn "=", rn "=")].

Definition keyChar (c : rune) : bool := atomMatch keyClass c.

Definition keyPrefix : gostring := Eval cbv in str "ssh-rsa ".

(** The text starts with a character of a key. *)
Definition startsKeyChar (s : gostring) : bool :=
  match s with
  | [] => false
  | c :: _ => keyChar c
  end.

(** The text has one character for each item of the shape. *)
Fixpoint shaped (shape : list atom) (s : gostring) : bool :=
  match shape, s with
  | [], [] => true
  | a :: shape', c :: s' => (atomMatch a c && shaped shape' s')%bool
  | _, _ => false
  end.

(** [dddd-dd-ddTdd:dd:dd] *)
Definition dateTimeShape : list atom := Eval cbv in
  [digit; digit; digit; digit; Lit (rn "-"); digit; digit; Lit (rn "-");
   digit; digit; Lit (rn "T"); digit; digit; Lit (rn ":");
   digit; digit; Lit (rn ":"); digit; digit].

(** The fraction of a timestamp as the date pattern reads it: nothing, or
    one character other than a newline followed by one or more digits. *)
Definition fractionShaped (f : gostring) : bool :=
  match f with
  | [] => true
  | c :: ds =>
      (atomMatch AnyChar c && negb (bool_decide (ds = []))
       && forallb (atomMatch digit) ds)%bool
  end.

(** The characters of a UUID in text form: hexadecimal digits and [-]. *)
Definition uuidClass : atom := Eval cbv in
  Class [(rn "0", rn "9"); (rn "a", rn "f"); (rn "A", rn "F"); (rn "-", rn "-")].

Definition uuidChar (c : rune) : bool := atomMatch uuidClass c.

(** ** Vocabulary of the proofs *)

(** A list of patterns to be matched one after the other: what remains of a
    pattern once some of its characters are read. *)
Fixpoint matchList (rs : list regex) (s : gostring) (n : nat) : option nat :=
  match rs with
  | [] => Some n
  | r :: rs' => matchRe r s n (fun s' n' => matchList rs' s' n')
  end.

(** There is a match. *)
Definition ok (o : option nat) : bool :=
  match o with Some _ => true | None => false end.

(** A date, respectively a key, starts at the first character. *)
Definition dm (y : gostring) : bool := ok (matchLen dateMatcher y).
Definition km (y : gostring) : bool := ok (matchLen sshKeyMatcher y).

(** The two patterns as lists of items. *)
Definition dateItems : list regex := Eval cbv in
  [Atom digit; Atom digit; Atom digit; Atom digit; Atom (Lit (rn "-"));
   Atom digit; Atom digit; Atom (Lit (rn "-"));
   Atom digit; Atom digit; Atom (Lit (rn "T"));
   Atom digit; Atom digit; Atom (Lit (rn ":"));
   Atom digit; Atom digit; Atom (Lit (rn ":"));
   Atom digit; Atom digit;
   Opt (Seq (Atom AnyChar) (Plus digit)); Atom (Lit (rn "Z"))].

Definition keyItems : list regex := Eval cbv in
  [Atom (Lit (rn "s")); Atom (Lit (rn "s")); Atom (Lit (rn "h"));
   Atom (Lit (rn "-"));
   Atom (Lit (rn "r")); Atom (Lit (rn "s")); Atom (Lit (rn "a"));
   Atom (Lit (rn " "));
   Plus (Class [(rn "0", rn "9"); (rn "a", rn "z"); (rn "A", rn "Z");
                (rn "+", rn "+"); (rn "/", rn "/"); (rn "=", rn "=")])].

(** The residual patterns met after the first character of a date match. *)
Definition dateStates : list (list regex) := Eval cbv in
  ((fun i => drop i dateItems) <$> seq 1 20)
  ++ [[Atom AnyChar; Plus digit; Atom (Lit (rn "Z"))];
      [Plus digit; Atom (Lit (rn "Z"))];
      [Opt (Plus digit); Atom (Lit (rn "Z"))]].

(** The residual patterns met after the first character of a key match. *)
Definition keyStates : list (list regex) := Eval cbv in
  ((fun i => drop i keyItems) <$> seq 1 8)
  ++ [[Opt (Plus (Class [(rn "0", rn "9"); (rn "a", rn "z"); (rn "A", rn "Z");
                         (rn "+", rn "+"); (rn "/", rn "/"); (rn "=", rn "=")]))]].

(** [x'] accepts from every residual pattern of [Q] from which [x] accepts. *)
Definition covers (Q : list (list regex)) (x x' : gostring) : Prop :=
  Forall (fun rs => forall n, ok (matchList rs x n) = true ->
                              ok (matchList rs x' n) = true) Q.

(** [Q] is closed under reading one character. *)
Definition closed (Q : list (list regex)) : Prop :=
  forall c x x', covers Q x x' -> covers Q (c :: x) (c :: x').

(** A date match starts here only if a fake date starts here. *)
Definition atFakeDate (y : gostring) : bool :=
  (HasPrefix y fakeDate || negb (dm y))%bool.

(** The date match that starts here, if any, is exactly a fake date. *)
Definition exactFakeDate (y : gostring) : bool :=
  (negb (dm y)
   || (HasPrefix y fakeDate && bool_decide (matchLen dateMatcher y = Some 20)))%bool.

(** The cells after the loops over slices: the cell [j] is rewritten [k j]
    times. *)
Definition rewriteCells (sub : gostring) (k : nat -> nat) (cells : list gostring)
  : list gostring :=
  imap (fun j c => Nat.iter (k j) (hideSubID sub) c) cells.



(** No key starts at the first character. *)
Definition noKey (y : gostring) : bool := negb (km y).

End testcommon.

(** * Concrete instances

    A small instance of the parameters, used to run the definitions: the
    test-case description is the Identifier it was built for. *)

Module Examples.
Import astmodel pipeline testcommon.

Definition newTestCase (name : TypeName) (_ : Type_ TypeName) (_ : unit)
  : TypeName := name.

Definition nameA : TypeName := MakeTypeName "v1" "A".
Definition nameB : TypeName := MakeTypeName "v1" "B".
Definition nameC : TypeName := MakeTypeName "v1" "C".

Definition objectA : TypeDefinition TypeName :=
  {| Name := nameA; Type' := ObjectType [MakeProperty "id" true (PrimitiveType "string")] [] |}.

Definition enumB : TypeDefinition TypeName :=
  {| Name := nameB; Type' := EnumType "string" ["on"; "off"] |}.

Definition enumC : TypeDefinition TypeName :=
  {| Name := nameC; Type' := EnumType "string" ["x"] |}.

Definition arrayA : TypeDefinition TypeName :=
  {| Name := nameA; Type' := ArrayType (ObjectType [] []) |}.

(** A factory whose visitor rejects every Enum. *)
Definition rejectEnums : handler TypeName :=
  fun _ _ => Err (errorString "no legal test name").

Definition enumRejectingFactory : @objectSerializationTestCaseFactory TypeName unit :=
  {| idFactory := tt;
     visitor := Build {| VisitTypeName := None;
                         VisitPrimitive := None;
                         VisitObjectType := Some (injectTestCaseIntoObject newTestCase tt);
                         VisitResourceType := Some (injectTestCaseIntoResource newTestCase tt);
                         VisitEnumType := Some rejectEnums;
                         VisitMapType := None;
                         VisitArrayType := None;
                         VisitOptionalType := None;
                         VisitFlaggedType := None |} |}.

Definition graphABC : Types TypeName :=
  <[nameA := objectA]> (<[nameB := enumB]> {[nameC := enumC]}).

Definition live : Context := {| cancelled := false |}.
Definition cancelledCtx : Context := {| cancelled := true |}.

(** Texts and recordings. *)

Definition runOnDate : gostring := Eval cbv in str "2001-02-03T04:05:06.5Z123Z".

Definition recordedBody : gostring := Eval cbv in
  str "created 2020-01-01T10:00:00.5Z with ssh-rsa AAAAB3Nza/+= end".

Definition subA : gostring := Eval cbv in str "aaaaaaaa-bbbb-cccc-dddd-eeeeeeeeeee0".
Definition subB : gostring := Eval cbv in str "1b2c3d4e-1111-2222-3333-456789abcdef".

Definition urlA : gostring := Eval cbv in
  str "aaaaaaaa-bbbb-cccc-dddd-eeeeeeeeeeeaaaaaaaa-bbbb-cccc-dddd-eeeeeeeeeee0".
Definition urlB : gostring := Eval cbv in
  str "/subscriptions/1b2c3d4e-1111-2222-3333-456789abcdef/resourceGroups/rg".



(** A store with one interaction, at location 1.  Its request has an
    [Authorization] header, a count header and two headers whose values are
    one and the same slice, which holds [urlB]; its response has a header
    with that slice too.  The map object at location 6 holds the headers of
    a later request. *)
Definition interactionB : Interaction :=
  {| Request_ := {| reqBody := recordedBody; reqURL := urlB; reqMethod := str "PUT";
                    reqHeaders := 2%positive |};
     Response_ := {| respBody := []; respHeaders := 3%positive |} |}.

Definition sharedValues : slice :=
  {| sliceArray := 5%positive; sliceOffset := 0; sliceLen := 1 |}.

Definition countHeader : gostring := Eval cbv in str "Test-Request-Attempt".

Definition storeB : store :=
  {| interactions := {[ 1%positive := interactionB ]};
     headers :=
       {[ 2%positive :=
            {[ str "Authorization" :=
                 {| sliceArray := 4%positive; sliceOffset := 0; sliceLen := 1 |};
               countHeader :=
                 {| sliceArray := 7%positive; sliceOffset := 0; sliceLen := 1 |};
               str "Location" := sharedValues;
               str "X-Location" := sharedValues ]};
          3%positive := {[ str "Location" := sharedValues ]};
          6%positive :=
            {[ countHeader :=
                 {| sliceArray := 8%positive; sliceOffset := 0; sliceLen := 1 |} ]} ]};
     arrays := {[ 4%positive := [str "Bearer token"]; 5%positive := [urlB];
                  7%positive := [str "1"]; 8%positive := [str "1"] ]} |}.

(** The same store with [urlA] in the shared slice. *)
Definition storeC : store :=
  {| interactions := interactions storeB;
     headers := headers storeB;
     arrays := {[ 4%positive := [str "Bearer token"]; 5%positive := [urlA] ]} |}.





(** A recorder that records, and credentials for each of the
    subscription IDs. *)
Definition blankRecorder (m : Mode) : Recorder :=
  {| mode := m; Matcher := fun _ r i => Done (DefaultMatcher r i, r);
     SaveFilters := [] |}.


Definition newAsMode : gostring -> Mode -> option unit -> res string Recorder :=
  fun _ m _ => Ok (blankRecorder m).


Definition tcA : PerTestContext :=
  {| AzureRegion := str "westus2"; RecordReplay := true;
     AzureSubscription := subB; TestName := str "Test_X" |}.

(** Further texts, a request that replays [interactionB], and a recorder
    that replays. *)

Definition keyText : gostring := Eval cbv in str "AAAAB3Nza/+=".

Definition plainBody : gostring := Eval cbv in str "{location: westus2}".

Definition replayedBody : gostring := Eval cbv in
  str "created 2021-05-05T11:11:11Z with ssh-rsa BBBB end".

Definition urlReplayed : gostring := Eval cbv in
  str "/subscriptions/00000000-0000-0000-0000-000000000000/resourceGroups/rg".

Definition replayRequest : HttpRequest :=
  {| Method := str "PUT"; URL := urlReplayed; Header_ := 6%positive;
     Body := Some (NopCloser replayedBody) |}.

Definition tcReplay : PerTestContext :=
  {| AzureRegion := str "westus2"; RecordReplay := true;
     AzureSubscription := uuidNil; TestName := str "Test_X" |}.

Definition newReplaying : gostring -> res string Recorder :=
  fun _ => Ok (blankRecorder ModeReplaying).

Definition noCredentials : res string (option unit * gostring) :=
  Err "AZURE_SUBSCRIPTION_ID is not set".

(** Two headers with different values. *)
Definition valuesX : slice :=
  {| sliceArray := 4%positive; sliceOffset := 0; sliceLen := 1 |}.

Definition headerXY : Header :=
  {[ str "X" := valuesX; str "Y" := sharedValues ]}.

End Examples.

(** * Properties of the test-case injection stage *)

Import astmodel pipeline.

Section StageProperties.
Context {TestCase IdentifierFactory : Type}.
Context (NewJSONSerializationTestCase :
           TypeName -> Type_ TestCase -> IdentifierFactory -> TestCase).

Abbreviation factory := (@objectSerializationTestCaseFactory TestCase IdentifierFactory).

(** The factory built by the stage. *)
Abbreviation shipped idf :=
  (makeObjectSerializationTestCaseFactory NewJSONSerializationTestCase idf).
Abbreviation withTests' idf := (withTests NewJSONSerializationTestCase idf).
Implicit Types (s : factory) (d : TypeDefinition TestCase)
  (order : list (TypeDefinition TestCase)) (types : Types TestCase).

Lemma rangeLoop_spec s order : forall result errs,
  noPanic s order ->
  rangeLoop s result errs order
  = Done (foldl (fun m u => <[Name u := u]> m) result (updates s order),
          errs ++ failures s order).
Proof.
  induction order as [|d rest IH]; intros result errs Hnp.
  - simpl. by rewrite app_nil_r.
  - apply Forall_cons in Hnp as [Hd Hrest].
    unfold updates, failures in *. simpl. unfold loopBody.
    destruct (AddTestTo s d) as [u|e|m] eqn:E; simpl.
    + by rewrite IH.
    + rewrite IH by done. by rewrite <- app_assoc.
    + by destruct (Hd m).
Qed.

Lemma runStage_spec s ctx types order :
  noPanic s order ->
  runStage s ctx types order =
    match failures s order with
    | [] => Returns (Some (foldl (fun m u => <[Name u := u]> m) ∅ (updates s order))) None
    | errs => Returns None (Some (aggregate errs))
    end.
Proof.
  intros Hnp. unfold runStage. rewrite rangeLoop_spec by done.
  rewrite app_nil_l.
  destruct (failures s order) as [|e errs]; [done|].
  rewrite bool_decide_true; [done|simpl; lia].
Qed.

Lemma Visit_shipped idf name (t : Type_ TestCase) :
  Visit (visitor (shipped idf)) t (ifaceTypeName name)
  = Ok (injected NewJSONSerializationTestCase idf name t).
Proof.
  induction t; simpl in *; try done; by rewrite IHt.
Qed.

Lemma AddTestTo_shipped idf d :
  AddTestTo (shipped idf) d = Ok (withTests' idf d).
Proof. unfold AddTestTo, VisitDefinition. by rewrite Visit_shipped. Qed.

Lemma noPanic_shipped idf order :
  noPanic (shipped idf) order.
Proof. apply Forall_forall. intros d _ m. by rewrite AddTestTo_shipped. Qed.

Lemma omap_all_None {A B} (g : A -> option B) (l : list A) :
  (forall a, g a = None) -> omap g l = [].
Proof. intros Hg. induction l as [|a l IH]; [done|]. csimpl. by rewrite Hg. Qed.

Lemma omap_all_Some {A B} (g : A -> option B) (f : A -> B) (l : list A) :
  (forall a, g a = Some (f a)) -> omap g l = f <$> l.
Proof. intros Hg. induction l as [|a l IH]; [done|]. csimpl. by rewrite Hg, IH. Qed.

Lemma failures_shipped idf order :
  failures (shipped idf) order = [].
Proof. apply omap_all_None. intros d. by rewrite AddTestTo_shipped. Qed.

Lemma updates_shipped idf order :
  updates (shipped idf) order = withTests' idf <$> order.
Proof. apply omap_all_Some. intros d. by rewrite AddTestTo_shipped. Qed.

(** Inserting Declarations with pairwise distinct Identifiers. *)
Lemma insertAll_lookup_in (us : list (TypeDefinition TestCase)) :
  forall (m : Types TestCase) u,
  NoDup (Name <$> us) -> u ∈ us ->
  foldl (fun m u => <[Name u := u]> m) m us !! Name u = Some u.
Proof.
  induction us as [|v us IH] using rev_ind; intros m u Hnd Hin.
  - by apply elem_of_nil in Hin.
  - rewrite foldl_snoc. rewrite fmap_app in Hnd. simpl in Hnd.
    apply NoDup_app in Hnd as (Hnd & Hdisj & _).
    apply elem_of_app in Hin as [Hin|Hin].
    + rewrite lookup_insert_ne; [by apply IH|].
      intros Heq. apply (Hdisj (Name u)).
      * by apply list_elem_of_fmap_2.
      * rewrite Heq. apply list_elem_of_singleton. done.
    + apply list_elem_of_singleton in Hin as ->. by rewrite lookup_insert_eq.
Qed.

Lemma insertAll_lookup_notin (us : list (TypeDefinition TestCase)) :
  forall (m : Types TestCase) k,
  k ∉ Name <$> us ->
  foldl (fun m u => <[Name u := u]> m) m us !! k = m !! k.
Proof.
  induction us as [|v us IH]; intros m k Hk; [done|].
  simpl. rewrite fmap_cons in Hk. apply not_elem_of_cons in Hk as [Hne Hk].
  rewrite IH by done. by rewrite lookup_insert_ne.
Qed.

Lemma rangeOrder_elem types order d :
  rangeOrder types order -> d ∈ order <-> exists k, types !! k = Some d.
Proof.
  unfold rangeOrder. intros ->. rewrite list_elem_of_fmap. split.
  - intros ([k d'] & -> & Hin). exists k. by apply elem_of_map_to_list.
  - intros [k Hk]. exists (k, d). split; [done|]. by apply elem_of_map_to_list.
Qed.

Lemma rangeOrder_names types order :
  wellFormed types -> rangeOrder types order -> NoDup (Name <$> order).
Proof.
  intros Hwf Hro. unfold rangeOrder in Hro. rewrite Hro.
  rewrite <- list_fmap_compose.
  rewrite (list_fmap_ext (Name ∘ snd) fst (map_to_list types)).
  - apply NoDup_fst_map_to_list.
  - intros i [k d] Hl. simpl. apply Hwf.
    apply elem_of_map_to_list. by eapply list_elem_of_lookup_2.
Qed.

Lemma insertAll_graph (f : TypeDefinition TestCase -> TypeDefinition TestCase) types order :
  (forall d, Name (f d) = Name d) ->
  wellFormed types -> rangeOrder types order ->
  foldl (fun m u => <[Name u := u]> m) ∅ (f <$> order) = f <$> types.
Proof.
  intros Hf Hwf Hro. apply map_eq. intros k.
  assert (Hnd : NoDup (Name <$> (f <$> order))).
  { rewrite <- list_fmap_compose.
    rewrite (list_fmap_ext (Name ∘ f) Name order); [|by intros; apply Hf].
    by eapply rangeOrder_names. }
  rewrite lookup_fmap. destruct (types !! k) as [d|] eqn:Hk; simpl.
  - rewrite <- (Hwf k d Hk), <- (Hf d).
    apply insertAll_lookup_in; [done|].
    apply list_elem_of_fmap_2. eapply rangeOrder_elem; eauto.
  - rewrite insertAll_lookup_notin; [done|].
    intros Hin. apply list_elem_of_fmap in Hin as (u & -> & Hu).
    apply list_elem_of_fmap in Hu as (d & -> & Hd).
    eapply rangeOrder_elem in Hd as [k' Hk']; [|done].
    rewrite Hf in Hk. rewrite (Hwf _ _ Hk') in Hk. congruence.
Qed.

Lemma runStage_shipped idf ctx types order :
  wellFormed types -> rangeOrder types order ->
  runStage (shipped idf) ctx types order
  = Returns (Some (withTests' idf <$> types)) None.
Proof.
  intros Hwf Hro. rewrite runStage_spec by apply noPanic_shipped.
  rewrite failures_shipped, updates_shipped.
  apply f_equal2; [|done]. f_equal.
  by apply insertAll_graph.
Qed.

Lemma rangeLoop_Done_noPanic s order : forall result errs st,
  rangeLoop s result errs order = Done st -> noPanic s order.
Proof.
  induction order as [|d rest IH]; intros result errs st H.
  - constructor.
  - simpl in H. unfold loopBody in H.
    destruct (AddTestTo s d) as [u|e|m] eqn:E; simpl in H; [| |done].
    + constructor; [by rewrite E|by eapply IH].
    + constructor; [by rewrite E|by eapply IH].
Qed.

Lemma runStage_Returns_noPanic s ctx types order g err :
  runStage s ctx types order = Returns g err -> noPanic s order.
Proof.
  unfold runStage. intros H.
  destruct (rangeLoop s ∅ [] order) as [st|m] eqn:E; [|done].
  by eapply rangeLoop_Done_noPanic.
Qed.

Lemma AddTestTo_Name s d u : AddTestTo s d = Ok u -> Name u = Name d.
Proof.
  unfold AddTestTo, VisitDefinition.
  destruct (Visit _ _ _); intros H; by simplify_eq.
Qed.

Lemma AddTestTo_Err s d e :
  AddTestTo s d = Err e <->
  exists cause, Visit (visitor s) (Type' d) (ifaceTypeName (Name d)) = Err cause
                /\ e = visitFailed (Name d) cause.
Proof.
  unfold AddTestTo, VisitDefinition.
  destruct (Visit _ _ _) as [t|c|m]; split.
  - done.
  - by intros (c & ? & _).
  - intros H. simplify_eq. by exists c.
  - intros (c' & ? & ->). by simplify_eq.
  - done.
  - by intros (c & ? & _).
Qed.

Lemma failures_elem s order e :
  e ∈ failures s order <-> exists d, d ∈ order /\ AddTestTo s d = Err e.
Proof.
  unfold failures. rewrite list_elem_of_omap. split.
  - intros (d & Hd & Hf). exists d. split; [done|].
    destruct (AddTestTo s d); simpl in Hf; by simplify_eq.
  - intros (d & Hd & Hf). exists d. split; [done|]. by rewrite Hf.
Qed.

Lemma failCount_order s types order :
  rangeOrder types order -> length (failures s order) = failCount s types.
Proof. unfold rangeOrder, failCount, failures. by intros ->. Qed.

Lemma updates_all_Ok s order :
  noPanic s order -> failures s order = [] ->
  updates s order = (fun d => default d (success (AddTestTo s d))) <$> order
  /\ forall d, d ∈ order -> AddTestTo s d = Ok (default d (success (AddTestTo s d))).
Proof.
  unfold updates, failures.
  induction order as [|d rest IH]; intros Hnp Hf; [split; [done|]; by intros d ?%elem_of_nil|].
  apply Forall_cons in Hnp as [Hd Hrest]. csimpl in *.
  destruct (AddTestTo s d) as [u|e|m] eqn:E; simpl in *; [|done|by destruct (Hd m)].
  destruct (IH Hrest Hf) as [-> Hall]. split; [done|].
  intros d' [->|Hin]%elem_of_cons; [by rewrite E|by apply Hall].
Qed.

(** C1, as amended.  On a well-formed Type Graph and in a run in which no
    attempt panics: if exactly [k >= 1] Declarations fail, the stage returns
    no graph together with one aggregate error that contains exactly [k]
    per-item errors; if [k = 0] it returns a graph that holds, under each
    Identifier, the updated copy of the Declaration stored there.  With the
    shipped handlers no Declaration fails, and the updated copy of a
    Declaration carries the test-case built for its Identifier on its Object
    or Resource, and also on an Object or Resource nested under Map, Array,
    Optional or Flagged nodes; a Declaration without such a node is
    unchanged. *)
Theorem stage_fail_closed s ctx types order :
  wellFormed types -> rangeOrder types order -> noPanic s order ->
  (1 <= failCount s types ->
     exists errs, runStage s ctx types order = Returns None (Some (aggregate errs))
                  /\ length errs = failCount s types)
  /\ (failCount s types = 0 ->
        exists g, runStage s ctx types order = Returns (Some g) None
                  /\ forall k u, g !! k = Some u <->
                                 exists d, types !! k = Some d /\ AddTestTo s d = Ok u)
  /\ (forall idf, s = makeObjectSerializationTestCaseFactory NewJSONSerializationTestCase idf ->
        failCount s types = 0
        /\ runStage s ctx types order
           = Returns (Some (withTests NewJSONSerializationTestCase idf <$> types)) None
        /\ forall d,
             AddTestTo s d = Ok (withTests NewJSONSerializationTestCase idf d)
             /\ (isObjectOrResource (Type' d) = true ->
                   withTests NewJSONSerializationTestCase idf d
                   = WithType d (WithTestCase (Type' d)
                                   (NewJSONSerializationTestCase (Name d) (Type' d) idf)))
             /\ (reachesObjectOrResource (Type' d) = false ->
                   withTests NewJSONSerializationTestCase idf d = d)).
Proof.
  intros Hwf Hro Hnp. split; [|split].
  - intros Hk. rewrite <- (failCount_order s types order Hro) in *.
    rewrite runStage_spec by done.
    destruct (failures s order) as [|e errs] eqn:E; [simpl in Hk; lia|].
    by exists (e :: errs).
  - intros Hk. rewrite <- (failCount_order s types order Hro) in Hk.
    apply length_zero_iff_nil in Hk.
    rewrite runStage_spec by done. rewrite Hk.
    destruct (updates_all_Ok s order Hnp Hk) as [-> Hall].
    eexists. split; [done|]. intros k u.
    rewrite (insertAll_graph _ types order); [|intros d|done|done].
    + rewrite lookup_fmap. destruct (types !! k) as [d|] eqn:Hd; simpl.
      * assert (Hin : d ∈ order) by (eapply rangeOrder_elem; eauto).
        specialize (Hall d Hin). split.
        -- intros [= <-]. by exists d.
        -- intros (d' & [= <-] & Hu). by rewrite Hu.
      * split; [done|]. by intros (d' & ? & _).
    + destruct (AddTestTo s d) as [u'| |] eqn:E; simpl; [|done|done].
      by eapply AddTestTo_Name.
  - intros idf ->. split; [|split].
    + unfold failCount. by rewrite failures_shipped.
    + by apply runStage_shipped.
    + intros d. split; [apply AddTestTo_shipped|]. split.
      * unfold withTests. by destruct (Type' d).
      * unfold withTests, WithType. destruct d as [n t]. simpl. intros Hr.
        f_equal. induction t; simpl in *; try done; by rewrite IHt.
Qed.




(** C3.  A failure does not stop the loop: the outcome of the stage is
    determined by the attempts on all the Declarations of the graph, the
    error of every Declaration that fails is among the collected errors
    (which are the failures of the whole iteration, in its order), and the
    updated copy of every Declaration that succeeds is among the updates. *)
Theorem stage_attempts_every_declaration s ctx types order :
  rangeOrder types order -> noPanic s order ->
  runStage s ctx types order
  = match failures s order with
    | [] => Returns (Some (foldl (fun m u => <[Name u := u]> m) ∅ (updates s order))) None
    | errs => Returns None (Some (aggregate errs))
    end
  /\ (forall k d e, types !! k = Some d -> AddTestTo s d = Err e ->
        e ∈ failures s order)
  /\ (forall k d u, types !! k = Some d -> AddTestTo s d = Ok u ->
        u ∈ updates s order).
Proof.
  intros Hro Hnp. split; [by apply runStage_spec|]. split.
  - intros k d e Hk He. apply failures_elem. exists d. split; [|done].
    eapply rangeOrder_elem; eauto.
  - intros k d u Hk Hu. unfold updates. apply list_elem_of_omap.
    exists d. split; [eapply rangeOrder_elem; eauto|]. by rewrite Hu.
Qed.

(** C4.  The errors of the aggregate returned by the stage are exactly the
    per-item errors of the failing Declarations of the graph: each carries
    the Identifier of its Declaration and the cause raised by the traversal
    of that Declaration, and every failing Declaration contributes its
    error. *)
Theorem stage_errors_carry_identifier s ctx types order errs :
  rangeOrder types order ->
  runStage s ctx types order = Returns None (Some (aggregate errs)) ->
  forall e, e ∈ errs <->
    exists k d cause,
      types !! k = Some d
      /\ Visit (visitor s) (Type' d) (ifaceTypeName (Name d)) = Err cause
      /\ e = visitFailed (Name d) cause.
Proof.
  intros Hro Hrun e.
  assert (Hnp := runStage_Returns_noPanic _ _ _ _ _ _ Hrun).
  rewrite runStage_spec in Hrun by done.
  destruct (failures s order) as [|e0 errs0] eqn:E; [done|].
  injection Hrun as <-. rewrite <- E. rewrite failures_elem. split.
  - intros (d & Hd & He). apply AddTestTo_Err in He as (cause & Hv & ->).
    eapply rangeOrder_elem in Hd as [k Hk]; [|done]. by exists k, d, cause.
  - intros (k & d & cause & Hk & Hv & ->). exists d. split.
    + eapply rangeOrder_elem; eauto.
    + apply AddTestTo_Err. by exists cause.
Qed.

(** C5, as amended.  The stage never consults its context: a run with a
    cancelled context returns what a run with a live context returns, and is
    not reported as cancelled.  No partial graph is surfaced, because a graph
    is returned only when no Declaration failed, and then without error. *)
Theorem stage_ignores_cancellation s ctx ctx' types order :
  runStage s ctx types order = runStage s ctx' types order
  /\ (forall g err, runStage s ctx types order = Returns (Some g) err ->
        err = None /\ failures s order = []).
Proof.
  split; [done|]. intros g err Hrun.
  assert (Hnp := runStage_Returns_noPanic _ _ _ _ _ _ Hrun).
  rewrite runStage_spec in Hrun by done.
  destruct (failures s order); [|done]. by simplify_eq.
Qed.

(** C7.  For a Declaration whose type is an Object or a Resource,
    [AddTestTo] returns a copy of the Declaration, under the same Identifier,
    whose type is the original one plus the test-case constructed from that
    Identifier; and whatever handler is installed for the variant receives
    the Identifier of the Declaration as its context value. *)
Theorem AddTestTo_threads_identifier idf def :
  isObjectOrResource (Type' def) = true ->
  AddTestTo (makeObjectSerializationTestCaseFactory NewJSONSerializationTestCase idf) def
  = Ok {| Name := Name def;
          Type' := WithTestCase (Type' def)
                     (NewJSONSerializationTestCase (Name def) (Type' def) idf) |}
  /\ (forall s h,
        match Type' def with
        | ObjectType _ _ => VisitObjectType (handlers (visitor s)) = Some h
        | _ => VisitResourceType (handlers (visitor s)) = Some h
        end ->
        Visit (visitor s) (Type' def) (ifaceTypeName (Name def))
        = h (Type' def) (ifaceTypeName (Name def))
        /\ AddTestTo s def
           = match h (Type' def) (ifaceTypeName (Name def)) with
             | Ok t => Ok (WithType def t)
             | Err cause => Err (visitFailed (Name def) cause)
             | Panic m => Panic m
             end).
Proof.
  intros Hk. split.
  - rewrite AddTestTo_shipped. unfold withTests, WithType.
    by destruct (Type' def).
  - intros s h Hh. unfold AddTestTo, VisitDefinition.
    destruct (Type' def); try done; simpl; by rewrite Hh.
Qed.

Lemma mapassign_insert (h : store TestCase) r (m : Types TestCase) k v :
  h !! r = Some m -> mapassign r k v h = <[r := <[k := v]> m]> h.
Proof.
  intros Hr. unfold mapassign. apply map_eq. intros l.
  destruct (decide (l = r)) as [->|Hne].
  - rewrite lookup_alter_eq, lookup_insert_eq, Hr. done.
  - by rewrite lookup_alter_ne, lookup_insert_ne.
Qed.

Lemma rangeLoopStore_spec s r order : forall (h : store TestCase) errs (m : Types TestCase),
  h !! r = Some m ->
  rangeLoopStore s r h errs order
  = match rangeLoop s m errs order with
    | Done (m', errs') => Done (<[r := m']> h, errs')
    | Panicked msg => Panicked msg
    end.
Proof.
  induction order as [|d rest IH]; intros h errs m Hr.
  - simpl. by rewrite insert_id.
  - simpl. unfold loopBody.
    destruct (AddTestTo s d) as [u|e|msg] eqn:E; simpl; [| |done].
    + rewrite (mapassign_insert h r m) by done.
      rewrite (IH _ _ (<[Name u := u]> m)) by apply lookup_insert_eq.
      destruct (rangeLoop s _ errs rest) as [[m' errs']|msg]; [|done].
      by rewrite insert_insert_eq.
    + by apply IH.
Qed.

Lemma runStageStore_spec s ctx (h : store TestCase) (types : loc) order :
  runStageStore s ctx h types order
  = match runStage s ctx ∅ order with
    | Returns g err =>
        match rangeLoop s ∅ [] order with
        | Done (m', _) =>
            ReturnsStore (<[fresh (dom h) := m']> h)
                         (match g with Some _ => Some (fresh (dom h)) | None => None end)
                         err
        | Panicked msg => PanicsStore msg
        end
    | Panics msg => PanicsStore msg
    end.
Proof.
  unfold runStageStore, runStage, make.
  rewrite (rangeLoopStore_spec s _ order _ [] ∅) by apply lookup_insert_eq.
  destruct (rangeLoop s ∅ [] order) as [[m' errs']|msg]; [|done].
  rewrite insert_insert_eq. by destruct (bool_decide _).
Qed.

(** C6.  A run of the stage on the store leaves the map object of its input
    as it was, and every other map object that existed before the call; the
    graph it returns, if any, is a map object allocated by the run, distinct
    from the input, that holds the result of the stage. *)
Theorem stage_preserves_input s ctx (h h' : store TestCase) (types : loc) m order g err :
  h !! types = Some m ->
  runStageStore s ctx h types order = ReturnsStore h' g err ->
  h' !! types = Some m
  /\ (forall l, l ∈ dom h -> h' !! l = h !! l)
  /\ (forall r, g = Some r ->
        (r ∉ dom h) /\ r <> types
        /\ exists out, h' !! r = Some out
                       /\ runStage s ctx m order = Returns (Some out) None).
Proof.
  intros Hm Hrun. rewrite runStageStore_spec in Hrun.
  assert (Hfresh : fresh (dom h) ∉ dom h) by apply is_fresh.
  assert (Hne : fresh (dom h) <> types).
  { intros Heq. apply Hfresh. rewrite Heq. apply elem_of_dom. by eexists. }
  unfold runStage in *.
  destruct (rangeLoop s ∅ [] order) as [[m' errs']|msg]; [|done].
  assert (Hframe : forall l, l ∈ dom h -> <[fresh (dom h) := m']> h !! l = h !! l).
  { intros l Hl. apply lookup_insert_ne. intros Heq. apply Hfresh. by rewrite Heq. }
  destruct (bool_decide (0 < length errs')); simplify_eq.
  - split; [|split]; [| done | done].
    rewrite Hframe; [done|]. apply elem_of_dom. by eexists.
  - split; [|split]; [| done |].
    + rewrite Hframe; [done|]. apply elem_of_dom. by eexists.
    + intros r [= <-]. split; [done|]. split; [done|].
      exists m'. by rewrite lookup_insert_eq.
Qed.

End StageProperties.

(** ** The stage on concrete graphs *)

Section StageExamples.
Import Examples.

Lemma graphABC_wellFormed : wellFormed graphABC.
Proof.
  intros k d. unfold graphABC.
  rewrite !lookup_insert_Some, lookup_singleton_Some.
  intros [[<- <-]|[_ [[<- <-]|[_ [<- <-]]]]]; done.
Qed.

Lemma graphABC_values : (map_to_list graphABC).*2 ≡ₚ [objectA; enumB; enumC].
Proof.
  unfold graphABC.
  rewrite !map_to_list_insert, map_to_list_singleton; [done| |].
  - by rewrite lookup_singleton_ne.
  - rewrite lookup_insert_ne by done. by rewrite lookup_singleton_ne.
Qed.

Lemma graphABC_order_1 : rangeOrder graphABC [objectA; enumB; enumC].
Proof. unfold rangeOrder. by rewrite graphABC_values. Qed.

Lemma graphABC_order_2 : rangeOrder graphABC [enumC; objectA; enumB].
Proof.
  unfold rangeOrder. rewrite graphABC_values.
  change [enumC; objectA; enumB] with ([enumC] ++ [objectA; enumB]).
  change [objectA; enumB; enumC] with ([objectA; enumB] ++ [enumC]).
  apply Permutation_app_comm.
Qed.

Lemma enumRejecting_noPanic order :
  Forall (fun d => Name d ∈ [nameA; nameB; nameC] /\ d ∈ [objectA; enumB; enumC]) order ->
  noPanic enumRejectingFactory order.
Proof.
  intros H. eapply Forall_impl; [exact H|]. intros d [_ Hd] m.
  repeat (apply elem_of_cons in Hd as [->|Hd]; [done|]). by apply elem_of_nil in Hd.
Qed.

(** C1 on the graph of [objectA], [enumB] and [enumC] with a visitor that
    rejects Enums: two failures, two collected errors, no graph. *)
Lemma stage_fail_closed_witness :
  failCount enumRejectingFactory graphABC = 2
  /\ exists errs,
       runStage enumRejectingFactory live graphABC [objectA; enumB; enumC]
       = Returns None (Some (aggregate errs))
       /\ length errs = 2.
Proof.
  assert (Hk : failCount enumRejectingFactory graphABC = 2).
  { rewrite <- (failCount_order _ _ _ graphABC_order_1). reflexivity. }
  split; [exact Hk|]. rewrite <- Hk.
  apply (stage_fail_closed newTestCase enumRejectingFactory live graphABC
           [objectA; enumB; enumC] graphABC_wellFormed graphABC_order_1).
  - apply enumRejecting_noPanic. repeat constructor; set_solver.
  - rewrite Hk. lia.
Defined.

(** C1 fails as stated: a Declaration whose type is an Array of Objects is
    neither an Object nor a Resource Declaration, and the stage changes it. *)
Lemma stage_changes_array_declaration :
  wellFormed ({[nameA := arrayA]} : Types TypeName)
  /\ rangeOrder {[nameA := arrayA]} [arrayA]
  /\ isObjectOrResource (Type' arrayA) = false
  /\ exists g d',
       action (InjectJsonSerializationTests newTestCase tt) live
              {[nameA := arrayA]} [arrayA]
       = Returns (Some g) None
       /\ g !! nameA = Some d'
       /\ d' <> arrayA.
Proof.
  split; [|split; [|split]].
  - intros k d [<- <-]%lookup_singleton_Some. done.
  - unfold rangeOrder. by rewrite map_to_list_singleton.
  - done.
  - eexists _, _. split; [reflexivity|]. split; [apply lookup_insert_eq|]. done.
Qed.




Lemma enumRejecting_noPanic_2 : noPanic enumRejectingFactory [enumC; objectA; enumB].
Proof. apply enumRejecting_noPanic. repeat constructor; set_solver. Qed.

(** C3 on a run whose first Declaration fails: the later failure is
    collected too, and the Declaration between them is updated. *)
Lemma stage_attempts_every_declaration_witness :
  runStage enumRejectingFactory live graphABC [enumC; objectA; enumB]
  = Returns None
      (Some (aggregate [visitFailed nameC (errorString "no legal test name");
                        visitFailed nameB (errorString "no legal test name")]))
  /\ withTests newTestCase tt objectA ∈ updates enumRejectingFactory [enumC; objectA; enumB].
Proof.
  destruct (stage_attempts_every_declaration enumRejectingFactory live graphABC
              [enumC; objectA; enumB] graphABC_order_2 enumRejecting_noPanic_2)
    as (Hrun & _ & Hok).
  split; [exact Hrun|].
  apply (Hok nameA objectA); [|reflexivity].
  unfold graphABC. apply lookup_insert_eq.
Defined.

(** C4 on the same run: an error is reported exactly when it is the
    failure of a Declaration of the graph under that Declaration's
    Identifier; the failure of [enumB] under [nameB] is reported. *)
Lemma stage_errors_carry_identifier_witness :
  let errs := [visitFailed nameC (errorString "no legal test name");
               visitFailed nameB (errorString "no legal test name")] in
  runStage enumRejectingFactory live graphABC [enumC; objectA; enumB]
  = Returns None (Some (aggregate errs))
  /\ (forall e, e ∈ errs <->
        exists k d cause,
          graphABC !! k = Some d
          /\ Visit (visitor enumRejectingFactory) (Type' d) (ifaceTypeName (Name d))
             = Err cause
          /\ e = visitFailed (Name d) cause)
  /\ visitFailed nameB (errorString "no legal test name") ∈ errs.
Proof.
  intros errs.
  pose proof (stage_errors_carry_identifier enumRejectingFactory live graphABC
                [enumC; objectA; enumB] errs graphABC_order_2 eq_refl) as H.
  split; [reflexivity|]. split; [exact H|].
  apply H. exists nameB, enumB, (errorString "no legal test name").
  split; [|split; reflexivity].
  unfold graphABC. rewrite lookup_insert_ne by done. apply lookup_insert_eq.
Defined.

(** C5 fails as stated: with a cancelled context the stage runs to the end
    and returns the graph, with no error. *)
Lemma stage_returns_graph_when_cancelled :
  cancelled cancelledCtx = true
  /\ rangeOrder {[nameA := objectA]} [objectA]
  /\ action (InjectJsonSerializationTests newTestCase tt) cancelledCtx
            {[nameA := objectA]} [objectA]
     = Returns (Some {[nameA := withTests newTestCase tt objectA]}) None.
Proof.
  split; [done|]. split; [|reflexivity].
  unfold rangeOrder. by rewrite map_to_list_singleton.
Qed.

(** C5, as amended, on a one-Declaration graph. *)
Lemma stage_ignores_cancellation_witness :
  runStage (makeObjectSerializationTestCaseFactory newTestCase tt) cancelledCtx
           {[nameA := objectA]} [objectA]
  = runStage (makeObjectSerializationTestCaseFactory newTestCase tt) live
             {[nameA := objectA]} [objectA]
  /\ failures (makeObjectSerializationTestCaseFactory newTestCase tt) [objectA] = [].
Proof.
  destruct (stage_ignores_cancellation
              (makeObjectSerializationTestCaseFactory newTestCase tt)
              cancelledCtx live {[nameA := objectA]} [objectA]) as [Heq Hg].
  split; [exact Heq|]. exact (proj2 (Hg _ _ eq_refl)).
Defined.

(** C6 on a store that holds one graph at location 1. *)
Lemma stage_preserves_input_witness :
  let h : store TypeName := {[1%positive := {[nameA := objectA]}]} in
  exists h' r,
    runStageStore (makeObjectSerializationTestCaseFactory newTestCase tt) live
                  h 1%positive [objectA]
    = ReturnsStore h' (Some r) None
    /\ h' !! 1%positive = Some {[nameA := objectA]}
    /\ r <> 1%positive.
Proof.
  intros h.
  pose (r := fresh (dom h)).
  pose (h' := <[r := {[nameA := withTests newTestCase tt objectA]}]> (<[r := ∅]> h)).
  assert (Hrun : runStageStore (makeObjectSerializationTestCaseFactory newTestCase tt)
                   live h 1%positive [objectA] = ReturnsStore h' (Some r) None)
    by reflexivity.
  exists h', r. split; [exact Hrun|].
  destruct (stage_preserves_input _ live h h' 1%positive {[nameA := objectA]}
              [objectA] (Some r) None (lookup_singleton_eq _ _) Hrun)
    as (Hin & _ & Hout).
  split; [exact Hin|]. exact (proj1 (proj2 (Hout r eq_refl))).
Defined.

(** C7 on [objectA]: the attached test-case is the one built for
    [nameA]. *)
Lemma AddTestTo_threads_identifier_witness :
  AddTestTo (makeObjectSerializationTestCaseFactory newTestCase tt) objectA
  = Ok {| Name := nameA;
          Type' := ObjectType [MakeProperty "id" true (PrimitiveType "string")] [nameA] |}.
Proof.
  exact (proj1 (AddTestTo_threads_identifier newTestCase tt objectA eq_refl)).
Defined.
End StageExamples.

(** * Properties of the recording helpers *)

Import testcommon.

(** ** Matching and scanning *)

(** The two patterns are matched item by item. *)
Lemma dateMatcher_items s : matchLen dateMatcher s = matchList dateItems s 0.
Proof. reflexivity. Qed.

Lemma keyMatcher_items s : matchLen sshKeyMatcher s = matchList keyItems s 0.
Proof. reflexivity. Qed.

Lemma ok_orelse (a b : option nat) :
  ok (match a with Some m => Some m | None => b end) = (ok a || ok b)%bool.
Proof. by destruct a. Qed.

(** The scanning equation of [ReplaceAllLiteralString]. *)
Lemma replaceAllFrom_skip re repl n : forall s,
  replaceAllFrom re repl n s = replaceAllFrom re repl 0 (drop n s).
Proof.
  induction n as [|n IH]; intros s; [done|].
  destruct s as [|c s]; [done|]. simpl. apply IH.
Qed.

Lemma replaceAll_cons re repl c s :
  replaceAllFrom re repl 0 (c :: s)
  = match matchLen re (c :: s) with
    | Some (S m) => repl ++ replaceAllFrom re repl 0 (drop m s)
    | _ => c :: replaceAllFrom re repl 0 s
    end.
Proof.
  simpl. destruct (matchLen re (c :: s)) as [[|m]|]; [done| |done].
  by rewrite replaceAllFrom_skip.
Qed.

(** Steps of the residual patterns. *)
Lemma matchList_atom a rs c s n :
  matchList (Atom a :: rs) (c :: s) n
  = if atomMatch a c then matchList rs s (S n) else None.
Proof. reflexivity. Qed.

Lemma matchList_opt r rs s n :
  matchList (Opt r :: rs) s n
  = match matchList (r :: rs) s n with Some m => Some m | None => matchList rs s n end.
Proof. reflexivity. Qed.

Lemma matchList_seq r1 r2 rs s n :
  matchList (Seq r1 r2 :: rs) s n = matchList (r1 :: r2 :: rs) s n.
Proof. reflexivity. Qed.

Lemma matchList_plus a rs c s n :
  matchList (Plus a :: rs) (c :: s) n
  = if atomMatch a c then matchList (Opt (Plus a) :: rs) s (S n) else None.
Proof. reflexivity. Qed.

Lemma covers_elem Q x x' rs n :
  covers Q x x' -> rs ∈ Q ->
  ok (matchList rs x n) = true -> ok (matchList rs x' n) = true.
Proof. intros H Hin. by apply (proj1 (Forall_forall _ _) H rs Hin). Qed.

(** Membership in an explicit list of residual patterns. *)
Ltac in_states :=
  repeat (first [ apply list_elem_of_here | apply list_elem_of_further ]).

Lemma orb_mono (a a' b b' : bool) :
  (a = true -> a' = true) -> (b = true -> b' = true) ->
  (a || b)%bool = true -> (a' || b')%bool = true.
Proof.
  intros Ha Hb [H|H]%orb_true_iff; apply orb_true_iff; [left|right]; auto.
Qed.

(** One character is read from every residual pattern of the goal, and the
    patterns that remain are looked up in the hypothesis. *)
Ltac read_char Hx :=
  intros ?;
  repeat first [ rewrite matchList_opt, ok_orelse | rewrite matchList_seq ];
  rewrite ?matchList_atom, ?matchList_plus;
  repeat match goal with
         | |- context [atomMatch ?a ?c0] => destruct (atomMatch a c0)
         end;
  cbv beta iota;
  repeat apply orb_mono;
  first [ done | apply (covers_elem _ _ _ _ _ Hx); in_states ].

Lemma dateStates_closed : closed dateStates.
Proof.
  intros c x x' Hx. unfold covers, dateStates.
  repeat apply Forall_cons_2; [..|apply Forall_nil_2]; read_char Hx.
Qed.

Lemma keyStates_closed : closed keyStates.
Proof.
  intros c x x' Hx. unfold covers, keyStates.
  repeat apply Forall_cons_2; [..|apply Forall_nil_2]; read_char Hx.
Qed.

(** Replacing the matches of [re] in the rest of a text does not create
    acceptance from the residual patterns of [Q]. *)
Lemma scan_covers re repl Q :
  closed Q ->
  (forall c s m X, matchLen re (c :: s) = Some (S m) -> covers Q (repl ++ X) (c :: s)) ->
  forall s, covers Q (replaceAllFrom re repl 0 s) s.
Proof.
  intros Hclosed Hrepl s. induction s as [|c s IH].
  - apply Forall_forall. by intros rs _ n.
  - rewrite replaceAll_cons.
    destruct (matchLen re (c :: s)) as [[|m]|] eqn:E.
    + by apply Hclosed.
    + by eapply Hrepl.
    + by apply Hclosed.
Qed.

(** No residual pattern accepts a text that starts with the replacement. *)
Ltac no_accept := intros ?; cbn; done.

Lemma hideDates_covers s : covers dateStates (hideDates s) s.
Proof.
  apply scan_covers; [apply dateStates_closed|].
  intros c s' m X _. unfold covers, dateStates, fakeDate.
  repeat apply Forall_cons_2; [..|apply Forall_nil_2]; no_accept.
Qed.

Lemma hideSSHKeys_covers_date s : covers dateStates (hideSSHKeys s) s.
Proof.
  apply scan_covers; [apply dateStates_closed|].
  intros c s' m X _. unfold covers, dateStates, fakeKey.
  repeat apply Forall_cons_2; [..|apply Forall_nil_2]; no_accept.
Qed.

Lemma keyMatch_first c s m :
  matchLen sshKeyMatcher (c :: s) = Some m -> c = 115%N.
Proof.
  rewrite keyMatcher_items. unfold keyItems. rewrite matchList_atom.
  simpl atomMatch. destruct (N.eqb_spec c 115); done.
Qed.

Lemma hideSSHKeys_covers_key s : covers keyStates (hideSSHKeys s) s.
Proof.
  apply scan_covers; [apply keyStates_closed|].
  intros c s' m X ->%keyMatch_first. unfold covers, keyStates, fakeKey.
  repeat apply Forall_cons_2; [..|apply Forall_nil_2]; try no_accept.
  - intros n _. rewrite matchList_plus. cbn -[matchList]. rewrite matchList_opt.
    by destruct (matchList _ _ _).
  - intros n _. rewrite matchList_opt. by destruct (matchList _ _ _).
Qed.

(** ** Matches are not empty *)

(** The count of consumed characters only grows. *)
Lemma matchRe_ge r : forall s n k m,
  (forall s' n' m', k s' n' = Some m' -> n' <= m') ->
  matchRe r s n k = Some m -> n <= m.
Proof.
  induction r as [a|r1 IH1 r2 IH2|r1 IH1|a|cnt r1 IH1]; intros s n k m Hk; simpl.
  - destruct s as [|c s]; [done|]. destruct (atomMatch a c); [|done].
    intros H%Hk. lia.
  - apply IH1. intros s' n' m'. by apply IH2.
  - destruct (matchRe r1 s n k) eqn:E; [|by apply Hk].
    intros [= ->]. by eapply IH1.
  - revert n. induction s as [|c s IHs]; intros n; [done|].
    destruct (atomMatch a c); [|done].
    match goal with |- context [match ?f s (S n) with _ => _ end] =>
      destruct (f s (S n)) eqn:E end.
    + intros [= ->]. apply IHs in E. lia.
    + intros H%Hk. lia.
  - revert s n m. induction cnt as [|cnt IHc]; intros s n m; [by apply Hk|].
    apply IH1. intros s' n' m'. apply IHc.
Qed.

Lemma matchList_ge rs : forall s n m, matchList rs s n = Some m -> n <= m.
Proof.
  induction rs as [|r rs IH]; intros s n m; simpl; [by intros [= ->]|].
  apply matchRe_ge. intros s' n' m'. apply IH.
Qed.

Lemma dateMatch_nonempty s : matchLen dateMatcher s <> Some 0.
Proof.
  rewrite dateMatcher_items. destruct s as [|c s]; [done|].
  unfold dateItems. rewrite matchList_atom.
  destruct (atomMatch _ c); [|done]. intros H%matchList_ge. lia.
Qed.

Lemma keyMatch_nonempty s : matchLen sshKeyMatcher s <> Some 0.
Proof.
  rewrite keyMatcher_items. destruct s as [|c s]; [done|].
  unfold keyItems. rewrite matchList_atom.
  destruct (atomMatch _ c); [|done]. intros H%matchList_ge. lia.
Qed.

(** ** Idempotence *)

(** A match at the head of a rewritten tail was already there. *)
Lemma dm_tail c x x' :
  covers dateStates x x' -> dm (c :: x) = true -> dm (c :: x') = true.
Proof.
  intros Hx. unfold dm. rewrite !dateMatcher_items. unfold dateItems.
  rewrite !matchList_atom. destruct (atomMatch _ c); [|done].
  apply (covers_elem _ _ _ _ _ Hx). in_states.
Qed.

Lemma km_tail c x x' :
  covers keyStates x x' -> km (c :: x) = true -> km (c :: x') = true.
Proof.
  intros Hx. unfold km. rewrite !keyMatcher_items. unfold keyItems.
  rewrite !matchList_atom. destruct (atomMatch _ c); [|done].
  apply (covers_elem _ _ _ _ _ Hx). in_states.
Qed.

Lemma hideSSHKeys_fakeKey y : hideSSHKeys (fakeKey ++ y) = fakeKey ++ hideSSHKeys y.
Proof. reflexivity. Qed.

Lemma hideSSHKeys_fakeDate y : hideSSHKeys (fakeDate ++ y) = fakeDate ++ hideSSHKeys y.
Proof. reflexivity. Qed.

Lemma HasPrefix_app s p : HasPrefix s p = true -> s = p ++ drop (length p) s.
Proof.
  revert s. induction p as [|a p IH]; intros s; [done|].
  destruct s as [|c s]; [done|]. simpl.
  intros [->%N.eqb_eq Hp]%andb_true_iff. f_equal. by apply IH.
Qed.

Lemma everywhere_drop P x n : everywhere P x = true -> everywhere P (drop n x) = true.
Proof.
  revert x. induction n as [|n IH]; intros x; [done|].
  destruct x as [|c x]; [done|]. simpl. intros [_ H]%andb_true_iff. by apply IH.
Qed.

Lemma everywhere_and P Q R x :
  (forall y, P y = true -> Q y = true -> R y = true) ->
  everywhere P x = true -> everywhere Q x = true -> everywhere R x = true.
Proof.
  intros H. induction x as [|c x IH]; simpl.
  - rewrite !andb_true_r. apply H.
  - intros [HP HPx]%andb_true_iff [HQ HQx]%andb_true_iff.
    apply andb_true_iff. split; [by apply H|by apply IH].
Qed.

Lemma everywhere_head P x : everywhere P x = true -> P x = true.
Proof. destruct x; simpl; by intros [? _]%andb_true_iff. Qed.

Lemma everywhere_fakeDate x :
  everywhere atFakeDate (fakeDate ++ x) = everywhere atFakeDate x.
Proof. reflexivity. Qed.

Lemma everywhere_fakeKey x :
  everywhere atFakeDate (fakeKey ++ x) = everywhere atFakeDate x.
Proof. reflexivity. Qed.

(** The scanning equation of each function. *)
Lemma hideDates_cons c s :
  hideDates (c :: s)
  = match matchLen dateMatcher (c :: s) with
    | Some (S m) => fakeDate ++ hideDates (drop m s)
    | _ => c :: hideDates s
    end.
Proof. apply replaceAll_cons. Qed.

Lemma hideSSHKeys_cons c s :
  hideSSHKeys (c :: s)
  = match matchLen sshKeyMatcher (c :: s) with
    | Some (S m) => fakeKey ++ hideSSHKeys (drop m s)
    | _ => c :: hideSSHKeys s
    end.
Proof. apply replaceAll_cons. Qed.

(** After [hideDates], a date match starts only where a fake date starts. *)
Lemma hideDates_atFakeDate s : everywhere atFakeDate (hideDates s) = true.
Proof.
  assert (H : forall len s, length s <= len ->
                everywhere atFakeDate (hideDates s) = true);
    [|by apply (H (length s))].
  clear s. induction len as [|len IH]; intros [|c s] Hlen; simpl in Hlen;
    try lia; try done.
  rewrite hideDates_cons.
  destruct (matchLen dateMatcher (c :: s)) as [[|m]|] eqn:E.
  - by destruct (dateMatch_nonempty (c :: s)).
  - rewrite everywhere_fakeDate. apply IH. rewrite length_drop. lia.
  - simpl. rewrite IH by lia. rewrite andb_true_r.
    unfold atFakeDate. apply orb_true_iff. right.
    destruct (dm (c :: hideDates s)) eqn:Hdm; [|done].
    apply (dm_tail _ _ _ (hideDates_covers s)) in Hdm.
    unfold dm in Hdm. by rewrite E in Hdm.
Qed.

(** [hideSSHKeys] keeps that property. *)
Lemma hideSSHKeys_atFakeDate t :
  everywhere atFakeDate t = true -> everywhere atFakeDate (hideSSHKeys t) = true.
Proof.
  assert (H : forall len t, length t <= len ->
                everywhere atFakeDate t = true ->
                everywhere atFakeDate (hideSSHKeys t) = true);
    [|by apply (H (length t))].
  clear t. induction len as [|len IH]; intros [|c t] Hlen Ht; simpl in Hlen;
    try lia; try done.
  rewrite hideSSHKeys_cons.
  destruct (matchLen sshKeyMatcher (c :: t)) as [[|m]|] eqn:E.
  - by destruct (keyMatch_nonempty (c :: t)).
  - rewrite everywhere_fakeKey. apply IH; [rewrite length_drop; lia|].
    apply everywhere_drop. simpl in Ht. by apply andb_true_iff in Ht as [_ ?].
  - pose proof (everywhere_head _ _ Ht) as Hhd.
    simpl in Ht. apply andb_true_iff in Ht as [_ Ht].
    simpl. rewrite IH by (done || lia). rewrite andb_true_r.
    unfold atFakeDate in *. apply orb_true_iff.
    destruct (dm (c :: hideSSHKeys t)) eqn:Hdm; [left|by right].
    apply (dm_tail _ _ _ (hideSSHKeys_covers_date t)) in Hdm.
    rewrite Hdm, orb_false_r in Hhd.
    apply HasPrefix_app in Hhd.
    assert (Hk : c :: hideSSHKeys t = hideSSHKeys (c :: t))
      by (by rewrite hideSSHKeys_cons, E).
    rewrite Hk, Hhd. by rewrite hideSSHKeys_fakeDate.
Qed.

(** [hideSSHKeys] is idempotent. *)
Lemma hideSSHKeys_idempotent t : hideSSHKeys (hideSSHKeys t) = hideSSHKeys t.
Proof.
  assert (H : forall len t, length t <= len ->
                hideSSHKeys (hideSSHKeys t) = hideSSHKeys t);
    [|by apply (H (length t))].
  clear t. induction len as [|len IH]; intros [|c t] Hlen; simpl in Hlen;
    try lia; try done.
  rewrite (hideSSHKeys_cons c t).
  destruct (matchLen sshKeyMatcher (c :: t)) as [[|m]|] eqn:E.
  - by destruct (keyMatch_nonempty (c :: t)).
  - rewrite hideSSHKeys_fakeKey. f_equal. apply IH. rewrite length_drop. lia.
  - rewrite hideSSHKeys_cons.
    destruct (matchLen sshKeyMatcher (c :: hideSSHKeys t)) as [[|m]|] eqn:E'.
    + by destruct (keyMatch_nonempty (c :: hideSSHKeys t)).
    + assert (Hkm : km (c :: hideSSHKeys t) = true) by (unfold km; by rewrite E').
      apply (km_tail _ _ _ (hideSSHKeys_covers_key t)) in Hkm.
      unfold km in Hkm. by rewrite E in Hkm.
    + f_equal. apply IH. lia.
Qed.

Lemma digitsThenZ_spec s : forall n,
  ok (matchList [Plus digit; Atom (Lit 90%N)] s n) = digitsThenZ s.
Proof.
  induction s as [|c s IH]; intros n; [done|].
  rewrite matchList_plus.
  change (digitsThenZ (c :: s))
    with (atomMatch digit c && (digitsThenZ s || HasPrefix s [90%N]))%bool.
  destruct (atomMatch digit c); [|done].
  rewrite matchList_opt, ok_orelse, IH. rewrite andb_true_l. f_equal.
  destruct s as [|c' s]; [done|]. rewrite matchList_atom. simpl.
  rewrite andb_true_r. by destruct (N.eqb c' 90).
Qed.

Lemma dateMatch_fakeDate y :
  digitsThenZ y = false -> matchLen dateMatcher (fakeDate ++ y) = Some 20.
Proof.
  intros H.
  change (matchLen dateMatcher (fakeDate ++ y))
    with (match matchList [Plus digit; Atom (Lit 90%N)] y 20 with
          | Some m => Some m
          | None => Some 20
          end).
  pose proof (digitsThenZ_spec y 20) as Hs. rewrite H in Hs.
  by destruct (matchList _ y 20).
Qed.

(** A text whose date matches are exactly fake dates is left unchanged. *)
Lemma hideDates_fixed x : everywhere exactFakeDate x = true -> hideDates x = x.
Proof.
  assert (H : forall len x, length x <= len ->
                everywhere exactFakeDate x = true -> hideDates x = x);
    [|by apply (H (length x))].
  clear x. induction len as [|len IH]; intros [|c x] Hlen Hx; simpl in Hlen;
    try lia; try done.
  pose proof (everywhere_head _ _ Hx) as Hhd.
  rewrite hideDates_cons.
  destruct (matchLen dateMatcher (c :: x)) as [[|m]|] eqn:E.
  - by destruct (dateMatch_nonempty (c :: x)).
  - unfold exactFakeDate, dm in Hhd. rewrite E in Hhd. cbn [ok negb orb] in Hhd.
    apply andb_true_iff in Hhd as [Hp Hm].
    apply bool_decide_eq_true in Hm. injection Hm as ->.
    apply HasPrefix_app in Hp. etransitivity; [|symmetry; exact Hp].
    f_equal. change (drop 19 x) with (drop (length fakeDate) (c :: x)).
    apply IH; [rewrite length_drop; simpl; lia|]. by apply everywhere_drop.
  - f_equal. apply IH; [lia|]. simpl in Hx. by apply andb_true_iff in Hx as [_ ?].
Qed.

Lemma exactFakeDate_intro y :
  atFakeDate y = true -> notRunOn y = true -> exactFakeDate y = true.
Proof.
  unfold atFakeDate, notRunOn, exactFakeDate.
  destruct (dm y); [|done]. cbn [negb orb]. rewrite orb_false_r. intros Hp.
  rewrite Hp. cbn [negb orb andb]. intros Hz%negb_true_iff.
  apply bool_decide_eq_true. rewrite (HasPrefix_app _ _ Hp).
  by apply dateMatch_fakeDate.
Qed.

(** Where a second pass changes nothing.  The replacement key is never
    matched again: [hideSSHKeys] is idempotent.  [hideRecordingData] is
    idempotent on every text whose image contains no replacement date
    directly followed by one or more digits and [Z]. *)
Lemma hideRecordingData_idempotent s :
  hideSSHKeys (hideSSHKeys s) = hideSSHKeys s
  /\ (cleanDates (hideRecordingData s) = true ->
        hideRecordingData (hideRecordingData s) = hideRecordingData s).
Proof.
  split; [apply hideSSHKeys_idempotent|].
  intros Hclean. unfold hideRecordingData in *.
  assert (Hfix : hideDates (hideSSHKeys (hideDates s)) = hideSSHKeys (hideDates s)).
  { apply hideDates_fixed.
    apply (everywhere_and atFakeDate notRunOn); [apply exactFakeDate_intro| |done].
    apply hideSSHKeys_atFakeDate, hideDates_atFakeDate. }
  rewrite Hfix. apply hideSSHKeys_idempotent.
Qed.

(** ** [strings.ReplaceAll] and the save filter *)

Lemma HasPrefix_app_r p x : HasPrefix (p ++ x) p = true.
Proof. induction p as [|a p IH]; [by destruct x|]. simpl. by rewrite N.eqb_refl. Qed.

Lemma elemb_true c l : elemb c l = true <-> c ∈ l.
Proof.
  unfold elemb. rewrite existsb_exists. split.
  - intros (x & Hin%list_elem_of_In & ->%N.eqb_eq). done.
  - intros Hin. exists c. split; [by apply list_elem_of_In|apply N.eqb_refl].
Qed.

Lemma Contains_cons c s sub :
  Contains (c :: s) sub = (HasPrefix (c :: s) sub || Contains s sub)%bool.
Proof. reflexivity. Qed.

Lemma Contains_prefix s p : HasPrefix s p = true -> Contains s p = true.
Proof. intros H. destruct s; simpl; by rewrite H. Qed.

Lemma Contains_app p n k : Contains (p ++ n ++ k) n = true.
Proof.
  induction p as [|a p IH].
  - rewrite app_nil_l. apply Contains_prefix, HasPrefix_app_r.
  - rewrite <- app_comm_cons, Contains_cons, IH. apply orb_true_r.
Qed.

Lemma replaceFrom_skip old new n : forall s,
  replaceFrom old new n s = replaceFrom old new 0 (drop n s).
Proof.
  induction n as [|n IH]; intros s; [done|].
  destruct s as [|c s]; [done|]. simpl. apply IH.
Qed.

Lemma replaceFrom_cons old new c s :
  replaceFrom old new 0 (c :: s)
  = if HasPrefix (c :: s) old
    then new ++ replaceFrom old new 0 (drop (length old - 1) s)
    else c :: replaceFrom old new 0 s.
Proof.
  simpl. destruct (HasPrefix (c :: s) old); [|done].
  by rewrite replaceFrom_skip.
Qed.

Section Apart.
Context (old new : gostring) (Hap : apart old new = true).

Lemma apart_inv :
  exists c old' z,
    old = c :: old' /\ last old = Some z /\ (c ∉ new) /\ (z ∉ new)
    /\ Contains old new = false.
Proof.
  unfold apart in Hap. destruct old as [|c old']; [done|].
  destruct (last (c :: old')) as [z|]; [|done].
  apply andb_true_iff in Hap as [[H1 H2]%andb_true_iff H3].
  exists c, old', z. repeat split; try done.
  - intros Hin%elemb_true. by rewrite Hin in H1.
  - intros Hin%elemb_true. by rewrite Hin in H2.
  - by apply negb_true_iff.
Qed.

(** No non-empty suffix of [old] starts a text that starts with [new]. *)
Lemma no_prefix_through_new q x :
  q `suffix_of` old -> q <> [] -> HasPrefix (new ++ x) q = false.
Proof.
  intros [p Hq] Hne.
  destruct apart_inv as (c & old' & z & Hold & Hlast & Hc & Hz & Hcont).
  destruct (HasPrefix (new ++ x) q) eqn:E; [|done]. exfalso.
  apply HasPrefix_app in E. apply app_eq_inv in E as [(k & Hn & _)|(k & Hk & _)].
  - (* q is a prefix of new: the last character of old is in new *)
    apply Hz. rewrite Hq in Hlast.
    rewrite last_app in Hlast. destruct (last q) as [z'|] eqn:Hl.
    + injection Hlast as <-. rewrite Hn. apply elem_of_app. left.
      by apply last_Some_elem_of.
    + by apply last_None in Hl.
  - (* new is a prefix of q: old contains new *)
    rewrite Hq, Hk, Contains_app in Hcont. done.
Qed.

(** A non-empty suffix of [old] at the head of a rewritten text was at the
    head of the text. *)
Lemma replaceFrom_prefix s : forall q,
  q `suffix_of` old ->
  HasPrefix (replaceFrom old new 0 s) q = true -> HasPrefix s q = true.
Proof.
  induction s as [|c s IH]; intros q Hq; [done|].
  destruct q as [|a q]; [done|].
  rewrite replaceFrom_cons. destruct (HasPrefix (c :: s) old).
  - by rewrite no_prefix_through_new.
  - simpl. intros [-> H]%andb_true_iff. apply andb_true_iff. split; [done|].
    apply IH; [|done]. by eapply suffix_cons_l.
Qed.

Lemma Contains_through_new n x :
  (forall c, c ∈ n -> c ∈ new) -> Contains (n ++ x) old = Contains x old.
Proof.
  destruct apart_inv as (c & old' & z & -> & _ & Hc & _).
  induction n as [|a n IH]; intros Hn; [done|].
  rewrite <- app_comm_cons, Contains_cons.
  rewrite IH by (intros; apply Hn; by right).
  simpl. destruct (N.eqb_spec a c) as [->|]; [|done].
  destruct Hc. apply Hn. by left.
Qed.

Lemma replaceFrom_free s : Contains (replaceFrom old new 0 s) old = false.
Proof.
  assert (H : forall len s, length s <= len ->
                Contains (replaceFrom old new 0 s) old = false);
    [|by apply (H (length s))].
  clear s.
  assert (Hnil : Contains [] old = false).
  { destruct apart_inv as (c & old' & z & -> & _). done. }
  induction len as [|len IH]; intros [|c s] Hlen; simpl in Hlen; try lia; try done.
  rewrite replaceFrom_cons. destruct (HasPrefix (c :: s) old) eqn:E.
  - rewrite Contains_through_new by done. apply IH. rewrite length_drop. lia.
  - rewrite Contains_cons.
    rewrite IH by lia. rewrite orb_false_r.
    destruct (HasPrefix (c :: replaceFrom old new 0 s) old) eqn:E'; [|done].
    destruct apart_inv as (a & q & z & Hold & _).
    assert (Hq : q `suffix_of` old) by (rewrite Hold; by apply suffix_cons_r).
    pose proof (replaceFrom_prefix s q Hq) as Hpre.
    rewrite Hold in E, E' at 2. simpl in E, E'.
    apply andb_true_iff in E' as [Hca H].
    rewrite Hca, (Hpre H) in E. done.
Qed.

Lemma ReplaceAll_free s : Contains (ReplaceAll s old new) old = false.
Proof.
  unfold ReplaceAll. destruct apart_inv as (c & old' & z & Hold & _).
  rewrite Hold. rewrite <- Hold. apply replaceFrom_free.
Qed.

End Apart.

(** The subscription ID in texts that do not hold it, and rewritten more than
    once. *)
Lemma Contains_nil s : Contains s [] = true.
Proof. by destruct s. Qed.

Lemma replaceFrom_absent old new s :
  Contains s old = false -> replaceFrom old new 0 s = s.
Proof.
  induction s as [|c s IH]; [done|].
  rewrite Contains_cons, replaceFrom_cons.
  intros [-> H]%orb_false_iff. by rewrite IH.
Qed.

Lemma ReplaceAll_absent s old new :
  Contains s old = false -> ReplaceAll s old new = s.
Proof.
  destruct old as [|a old]; [by rewrite Contains_nil|].
  apply replaceFrom_absent.
Qed.

(** Under [apart], rewriting again changes nothing. *)
Lemma hideSubID_iter sub k c :
  apart sub uuidNil = true ->
  Nat.iter (S k) (hideSubID sub) c = hideSubID sub c.
Proof.
  intros Hap. induction k as [|k IH]; [done|].
  rewrite Nat.iter_succ, IH. apply ReplaceAll_absent. by apply ReplaceAll_free.
Qed.


(** The loop over the cells of a slice, cell by cell. *)
Lemma hideSubIDCells_lookup sub n : forall cells i j,
  hideSubIDCells sub cells i n !! j
  = Nat.iter (if bool_decide (i <= j < i + n) then 1 else 0) (hideSubID sub)
    <$> cells !! j.
Proof.
  induction n as [|n IH]; intros cells i j.
  - rewrite bool_decide_false by lia. simpl. by destruct (cells !! j).
  - cbn [hideSubIDCells]. rewrite IH.
    destruct (decide (j = i)) as [->|Hne].
    + rewrite list_lookup_alter_eq, bool_decide_false, bool_decide_true by lia.
      destruct (cells !! i); reflexivity.
    + rewrite list_lookup_alter_ne by done.
      destruct (decide (i <= j < i + S n)).
      * by rewrite !bool_decide_true by lia.
      * by rewrite !bool_decide_false by lia.
Qed.

Lemma hideSubIDCells_length sub n : forall cells i,
  length (hideSubIDCells sub cells i n) = length cells.
Proof.
  induction n as [|n IH]; intros cells i; [done|].
  cbn [hideSubIDCells]. by rewrite IH, length_alter.
Qed.


Lemma rewriteCells_ext sub k1 k2 cells :
  (forall j, k1 j = k2 j) -> rewriteCells sub k1 cells = rewriteCells sub k2 cells.
Proof. intros H. unfold rewriteCells. apply imap_ext. intros j c _. by rewrite H. Qed.

Lemma rewriteCells_0 sub cells : rewriteCells sub (fun _ => 0) cells = cells.
Proof.
  unfold rewriteCells. apply list_eq. intros j.
  rewrite list_lookup_imap. by destruct (cells !! j).
Qed.

Lemma rewriteCells_add sub k1 k2 cells :
  rewriteCells sub k1 (rewriteCells sub k2 cells)
  = rewriteCells sub (fun j => k1 j + k2 j) cells.
Proof.
  unfold rewriteCells. apply list_eq. intros j.
  rewrite !list_lookup_imap. destruct (cells !! j); [|done]. simpl.
  by rewrite Nat.iter_add.
Qed.

Lemma hideSubIDCells_spec sub cells i n :
  hideSubIDCells sub cells i n
  = rewriteCells sub (fun j => if bool_decide (i <= j < i + n) then 1 else 0) cells.
Proof.
  apply list_eq. intros j. unfold rewriteCells.
  by rewrite hideSubIDCells_lookup, list_lookup_imap.
Qed.

Lemma hideSubIDValues_lookup sub v arrs a :
  hideSubIDValues sub v arrs !! a
  = rewriteCells sub (fun j => if holds v a j then 1 else 0) <$> arrs !! a.
Proof.
  unfold hideSubIDValues, holds. destruct (decide (sliceArray v = a)) as [<-|Hne].
  - rewrite lookup_alter_eq. rewrite bool_decide_true by done.
    cbn [andb]. destruct (arrs !! sliceArray v); [|done]. simpl.
    by rewrite hideSubIDCells_spec.
  - rewrite lookup_alter_ne by done. rewrite bool_decide_false by done.
    cbn [andb]. destruct (arrs !! a); [|done]. simpl. by rewrite rewriteCells_0.
Qed.

Lemma hideSubIDHeaders_lookup sub order : forall arrs a,
  hideSubIDHeaders sub order arrs !! a
  = rewriteCells sub (rewrites order a) <$> arrs !! a.
Proof.
  unfold hideSubIDHeaders.
  induction order as [|v order IH]; intros arrs a.
  - simpl. destruct (arrs !! a); [|done]. simpl. by rewrite rewriteCells_0.
  - cbn [foldl]. rewrite IH, hideSubIDValues_lookup.
    destruct (arrs !! a); [|done]. simpl. rewrite rewriteCells_add. f_equal.
    apply rewriteCells_ext. intros j. unfold rewrites.
    rewrite filter_cons. destruct (decide (holds v a j)) as [H|H].
    + apply Is_true_true in H. rewrite H. simpl. lia.
    + apply Is_true_false in H. rewrite H. simpl. lia.
Qed.

(** The loops over the headers do not depend on the order in which [range]
    walks the map. *)
Lemma hideSubIDHeaders_order sub h order arrs :
  rangeHeaders h order ->
  hideSubIDHeaders sub order arrs
  = hideSubIDHeaders sub (map_to_list (default ∅ h)).*2 arrs.
Proof.
  unfold rangeHeaders. intros Hperm. apply map_eq. intros a.
  rewrite !hideSubIDHeaders_lookup.
  destruct (arrs !! a); [|done]. simpl. f_equal.
  apply rewriteCells_ext. intros j. unfold rewrites. by rewrite Hperm.
Qed.

Lemma cellOf_hideSubIDHeaders sub order arrs a j :
  cellOf (hideSubIDHeaders sub order arrs) a j
  = Nat.iter (rewrites order a j) (hideSubID sub) <$> cellOf arrs a j.
Proof.
  unfold cellOf. rewrite hideSubIDHeaders_lookup.
  destruct (arrs !! a) as [cells|]; [|done]. simpl.
  unfold rewriteCells. by rewrite list_lookup_imap.
Qed.

(** The store that the save filter leaves. *)
Lemma saveFilter_Done sub i s it :
  interactions s !! i = Some it ->
  exists s',
    saveFilter sub i s = Done s'
    /\ interactions s' = <[i := saved sub it]> (interactions s)
    /\ headers s' = foldl (fun hs d => mapdelete d.1 d.2 hs) (headers s) (deletedHeaders it)
    /\ arrays s'
       = hideSubIDHeaders sub (headerSlices s (respHeaders (Response_ it)))
           (hideSubIDHeaders sub (headerSlices s (reqHeaders (Request_ it))) (arrays s)).
Proof. intros H. unfold saveFilter. rewrite H. eexists. by split. Qed.

Lemma saveFilter_inv sub i s s' :
  saveFilter sub i s = Done s' -> exists it, interactions s !! i = Some it.
Proof. unfold saveFilter. destruct (interactions s !! i); [eauto|done]. Qed.






Section Saved.
Context (sub : gostring).

Lemma saveFilter_cell i s s' it a j :
  interactions s !! i = Some it -> saveFilter sub i s = Done s' ->
  cell s' a j = Nat.iter (rewritten s it a j) (hideSubID sub) <$> cell s a j.
Proof.
  intros Hi Hs. destruct (saveFilter_Done sub i s it Hi) as (s1 & Hs1 & _ & _ & Ha).
  rewrite Hs in Hs1. injection Hs1 as <-.
  unfold cell, rewritten. rewrite Ha, !cellOf_hideSubIDHeaders.
  destruct (cellOf (arrays s) a j); [|done]. simpl.
  by rewrite Nat.add_comm, Nat.iter_add.
Qed.


Lemma saveFilter_interactions i s s' it :
  interactions s !! i = Some it -> saveFilter sub i s = Done s' ->
  interactions s' = <[i := saved sub it]> (interactions s).
Proof.
  intros Hi Hs. destruct (saveFilter_Done sub i s it Hi) as (s1 & Hs1 & H & _).
  rewrite Hs in Hs1. by injection Hs1 as <-.
Qed.








End Saved.

Section RecorderProperties.
Context (COUNT_HEADER : gostring) (CanonicalMIMEHeaderKey : gostring -> gostring).
Context {E Authorizer RoundTripper : Type}.
Context (New : gostring -> res E Recorder).
Context (NewAsMode : gostring -> Mode -> option RoundTripper -> res E Recorder).
Context (getAuthorizer : res E (option Authorizer * gostring)).

(** The recorder that [createRecorder] asks go-vcr for. *)
Abbreviation requested cassetteName recordReplay :=
  (if recordReplay : bool then New cassetteName
   else NewAsMode cassetteName ModeDisabled None).
Abbreviation createRecorder' :=
  (createRecorder COUNT_HEADER CanonicalMIMEHeaderKey New NewAsMode getAuthorizer).



End RecorderProperties.


(** ** [MakeARMId] *)

(** C9.  [MakeARMId] panics exactly when [params] is empty or of odd
    length, and for a non-empty [params] of even length it returns the
    subscription, resource group, provider and the [params] joined by [/]
    under their path segments. *)
Theorem MakeARMId_spec tc resourceGroup provider params :
  ((exists msg, MakeARMId tc resourceGroup provider params = Panicked msg)
   <-> (params = [] \/ Nat.Odd (length params)))
  /\ (params <> [] -> Nat.Even (length params) ->
        MakeARMId tc resourceGroup provider params
        = Done (str "/subscriptions/" ++ AzureSubscription tc
              ++ str "/resourceGroups/" ++ resourceGroup
              ++ str "/providers/" ++ provider
              ++ str "/" ++ Join params (str "/"))).
Proof.
  unfold MakeARMId. split.
  - split.
    + intros [msg H]. destruct params as [|p ps]; [by left|right].
      rewrite bool_decide_false in H by done.
      destruct (bool_decide (length (p :: ps) `mod` 2 <> 0)) eqn:E; [|done].
      apply bool_decide_eq_true in E.
      apply Nat.odd_spec. rewrite <- Nat.negb_even.
      destruct (Nat.even (length (p :: ps))) eqn:Ev; [|done].
      apply Nat.even_spec in Ev as [k Hk]. rewrite Hk in E.
      rewrite Nat.mul_comm, Nat.Div0.mod_mul in E. done.
    + intros [->|Hodd]; [by eexists|].
      destruct (bool_decide (length params = 0)); [by eexists|].
      rewrite bool_decide_true; [by eexists|].
      destruct Hodd as [k ->]. rewrite Nat.add_comm, Nat.mul_comm, Nat.Div0.mod_add. done.
  - intros Hne [k Hk]. rewrite bool_decide_false by (by destruct params).
    rewrite bool_decide_false
      by (rewrite Hk, Nat.mul_comm, Nat.Div0.mod_mul; auto).
    rewrite <- (app_nil_r (Join params (str "/"))) at 2. reflexivity.
Qed.

(** ** The recording helpers on concrete texts *)

Section RecordingExamples.
Import Examples.

(** C8 fails on the code.  On a timestamp with a fraction that is followed
    by digits and [Z], the first pass of [hideRecordingData] puts the
    replacement date in place of the timestamp and leaves [123Z] behind it;
    in the second pass the unescaped [.] of the optional group matches the
    [Z] of the replacement date, so the match runs on to the second [Z] and
    the text shrinks.  With the dot escaped the result of the first pass is
    the same and the second pass changes nothing. *)
Theorem hideRecordingData_not_idempotent :
  hideRecordingData runOnDate = str "2001-02-03T04:05:06Z123Z"
  /\ hideRecordingData (hideRecordingData runOnDate) = str "2001-02-03T04:05:06Z"
  /\ hideRecordingData (hideRecordingData runOnDate) <> hideRecordingData runOnDate
  /\ hideRecordingDataEscaped runOnDate = str "2001-02-03T04:05:06Z123Z"
  /\ hideRecordingDataEscaped (hideRecordingDataEscaped runOnDate)
     = hideRecordingDataEscaped runOnDate.
Proof. by vm_compute. Qed.

(** A second pass changes nothing on a text with a date and a key. *)
Example hideRecordingData_idempotent_recordedBody :
  hideRecordingData recordedBody
  = str "created 2001-02-03T04:05:06Z with ssh-rsa {KEY} end"
  /\ hideRecordingData (hideRecordingData recordedBody)
     = hideRecordingData recordedBody.
Proof.
  split; [reflexivity|].
  apply (proj2 (hideRecordingData_idempotent recordedBody)). reflexivity.
Qed.


(** A value slice that three headers of an interaction share is rewritten
    three times: with [subA] and [urlA] the second pass replaces the
    subscription ID that the first pass completed. *)
Remark shared_values_rewritten_each_time :
  exists s',
    saveFilter subA 1%positive storeC = Done s'
    /\ hideSubID subA urlA
       = str "aaaaaaaa-bbbb-cccc-dddd-eeeeeeeeeee00000000-0000-0000-0000-000000000000"
    /\ cell s' 5%positive 0
       = Some (str "00000000-0000-0000-0000-0000000000000000000-0000-0000-0000-000000000000").
Proof. eexists. split; [reflexivity|]. split; [reflexivity|]. by vm_compute. Qed.


(** C9 on one resource kind and name. *)
Lemma MakeARMId_spec_witness :
  MakeARMId tcA (str "rg1") (str "Microsoft.Storage")
            [str "storageAccounts"; str "acct1"]
  = Done (str ("/subscriptions/1b2c3d4e-1111-2222-3333-456789abcdef"
               ++ "/resourceGroups/rg1/providers/Microsoft.Storage"
               ++ "/storageAccounts/acct1")).
Proof.
  apply (proj2 (MakeARMId_spec tcA (str "rg1") (str "Microsoft.Storage")
                  [str "storageAccounts"; str "acct1"])).
  - done.
  - exists 1. reflexivity.
Defined.

End RecordingExamples.

(** * Further properties of the recording helpers *)

(** ** What the two replacements leave behind *)

Lemma everywhere_suffix P x :
  everywhere P x = true <-> forall pre post, x = pre ++ post -> P post = true.
Proof.
  induction x as [|c x IH].
  - simpl. rewrite andb_true_r. split.
    + intros H pre post Hx. symmetry in Hx. apply app_eq_nil in Hx as [_ ->]. done.
    + intros H. by apply (H [] []).
  - cbn [everywhere]. rewrite andb_true_iff, IH. split.
    + intros [Hhd Htl] [|a pre] post Hx; simpl in Hx.
      * by subst.
      * injection Hx as -> ->. by eapply Htl.
    + intros H. split; [by apply (H [])|].
      intros pre post ->. by apply (H (c :: pre)).
Qed.

Lemma noKey_None y : noKey y = true <-> matchLen sshKeyMatcher y = None.
Proof. unfold noKey, km. by destruct (matchLen sshKeyMatcher y). Qed.

(** No key starts inside the replacement of a key. *)
Lemma everywhere_noKey_fakeKey x :
  everywhere noKey (fakeKey ++ x) = everywhere noKey x.
Proof. reflexivity. Qed.

Lemma hideSSHKeys_noKey s : everywhere noKey (hideSSHKeys s) = true.
Proof.
  assert (H : forall len s, length s <= len ->
                everywhere noKey (hideSSHKeys s) = true);
    [|by apply (H (length s))].
  clear s. induction len as [|len IH]; intros [|c s] Hlen; simpl in Hlen;
    try lia; try done.
  rewrite hideSSHKeys_cons.
  destruct (matchLen sshKeyMatcher (c :: s)) as [[|m]|] eqn:E.
  - by destruct (keyMatch_nonempty (c :: s)).
  - rewrite everywhere_noKey_fakeKey. apply IH. rewrite length_drop. lia.
  - cbn [everywhere]. rewrite IH by lia. rewrite andb_true_r.
    unfold noKey. destruct (km (c :: hideSSHKeys s)) eqn:Hkm; [|done].
    apply (km_tail _ _ _ (hideSSHKeys_covers_key s)) in Hkm.
    unfold km in Hkm. by rewrite E in Hkm.
Qed.

Lemma atFakeDate_spec y :
  atFakeDate y = true ->
  matchLen dateMatcher y <> None -> exists post, y = fakeDate ++ post.
Proof.
  unfold atFakeDate, dm. intros [H|H]%orb_true_iff Hm.
  - apply HasPrefix_app in H. eauto.
  - by destruct (matchLen dateMatcher y).
Qed.

(** X1.  After [hideSSHKeys] no text that the key pattern matches is left:
    the pattern matches at no position of the result, whatever the input
    was. *)
Theorem hideSSHKeys_hides_keys s pre post :
  hideSSHKeys s = pre ++ post -> matchLen sshKeyMatcher post = None.
Proof.
  intros H. apply noKey_None.
  by apply (proj1 (everywhere_suffix noKey _) (hideSSHKeys_noKey s) pre).
Qed.


(** X3.  The two replacements of [hideRecordingData] do not undo each other:
    in its result the key pattern matches nowhere, and the date pattern
    matches only where the replacement date starts. *)
Theorem hideRecordingData_hides s pre post :
  hideRecordingData s = pre ++ post ->
  matchLen sshKeyMatcher post = None
  /\ (matchLen dateMatcher post <> None -> exists post', post = fakeDate ++ post').
Proof.
  unfold hideRecordingData. intros H. split.
  - apply noKey_None.
    by apply (proj1 (everywhere_suffix noKey _)
                (hideSSHKeys_noKey (hideDates s)) pre).
  - apply atFakeDate_spec.
    by apply (proj1 (everywhere_suffix atFakeDate _)
                (hideSSHKeys_atFakeDate _ (hideDates_atFakeDate s)) pre).
Qed.

(** A pattern that matches nowhere replaces nothing. *)
Lemma replaceAll_nothing re repl s :
  everywhere (fun y => negb (ok (matchLen re y))) s = true ->
  replaceAllFrom re repl 0 s = s.
Proof.
  induction s as [|c s IH]; [done|]. cbn [everywhere].
  intros [Hhd Htl]%andb_true_iff. rewrite replaceAll_cons.
  destruct (matchLen re (c :: s)) as [[|m]|]; [|done|]; by rewrite IH.
Qed.

Lemma nowhere_suffix re s :
  everywhere (fun y => negb (ok (matchLen re y))) s = true ->
  forall pre post, s = pre ++ post -> matchLen re post = None.
Proof.
  intros H pre post Hs.
  apply (proj1 (everywhere_suffix _ _) H) in Hs.
  by destruct (matchLen re post).
Qed.

(** X4.  A text in which neither the date pattern nor the key pattern
    matches at any position passes through [hideRecordingData]
    unchanged. *)
Theorem hideRecordingData_unchanged s :
  (forall pre post, s = pre ++ post ->
     matchLen dateMatcher post = None /\ matchLen sshKeyMatcher post = None) ->
  hideRecordingData s = s.
Proof.
  intros H.
  unfold hideRecordingData, hideDates, hideSSHKeys, ReplaceAllLiteralString.
  rewrite (replaceAll_nothing dateMatcher).
  - apply replaceAll_nothing. apply everywhere_suffix. intros pre post Hs.
    by rewrite (proj2 (H pre post Hs)).
  - apply everywhere_suffix. intros pre post Hs. by rewrite (proj1 (H pre post Hs)).
Qed.

(** ** A key and a timestamp in a text *)

Lemma keyMatch_prefix x :
  matchLen sshKeyMatcher x <> None -> HasPrefix x keyPrefix = true.
Proof.
  rewrite keyMatcher_items. unfold keyItems.
  do 8 (destruct x as [|? x]; [done|]; rewrite matchList_atom; cbn [atomMatch];
        match goal with |- context [N.eqb ?a ?b] =>
          destruct (N.eqb_spec a b); [subst|done] end).
  reflexivity.
Qed.

(** [ssh-rsa ] does not overlap itself: it does not start in a text and end
    in a copy of itself that follows the text. *)
Lemma keyPrefix_no_overlap p y :
  p <> [] -> HasPrefix p keyPrefix = false ->
  HasPrefix (p ++ keyPrefix ++ y) keyPrefix = false.
Proof.
  intros Hp. unfold keyPrefix.
  destruct p as [|a1 [|a2 [|a3 [|a4 [|a5 [|a6 [|a7 [|a8 p]]]]]]]]; [done|..];
    cbn [HasPrefix app]; intros H; try exact H;
    repeat match goal with |- context [N.eqb ?a ?b] =>
      destruct (N.eqb_spec a b); cbn [andb]; try done; try lia end.
Qed.

Lemma keyRun_rest rest n :
  startsKeyChar rest = false -> matchList [Plus keyClass] rest n = None.
Proof.
  destruct rest as [|c rest]; [done|]. cbn [startsKeyChar]. unfold keyChar.
  intros H. by rewrite matchList_plus, H.
Qed.

(** The greedy [+] reads the whole run of key characters. *)
Lemma keyRun key rest : forall n,
  forallb keyChar key = true -> startsKeyChar rest = false ->
  matchList [Opt (Plus keyClass)] (key ++ rest) n = Some (n + length key).
Proof.
  induction key as [|c key IH]; intros n Hkey Hrest.
  - rewrite matchList_opt, app_nil_l, keyRun_rest by done. cbn. f_equal; lia.
  - cbn [forallb] in Hkey. apply andb_true_iff in Hkey as [Hc Hkey].
    rewrite matchList_opt, <- app_comm_cons, matchList_plus.
    unfold keyChar in Hc. rewrite Hc, IH by done. cbn [length]. f_equal; lia.
Qed.

Lemma keyMatch_line key rest :
  key <> [] -> forallb keyChar key = true -> startsKeyChar rest = false ->
  matchLen sshKeyMatcher (keyPrefix ++ key ++ rest) = Some (8 + length key).
Proof.
  intros Hne Hkey Hrest. destruct key as [|c key]; [done|].
  cbn [forallb] in Hkey. apply andb_true_iff in Hkey as [Hc Hkey].
  rewrite keyMatcher_items.
  change (matchList keyItems (keyPrefix ++ (c :: key) ++ rest) 0)
    with (matchList [Plus keyClass] (c :: key ++ rest) 8).
  unfold keyChar in Hc. rewrite matchList_plus, Hc, keyRun by done.
  cbn [length]. f_equal; lia.
Qed.

(** X5.  A key in a text is replaced as a whole: when [ssh-rsa ] does not
    occur in the text before the key, the key is a non-empty run of
    characters of [[0-9a-zA-Z+/=]] and the text after it does not start with
    such a character, [hideSSHKeys] keeps the text before the key, puts
    [ssh-rsa {KEY}] in place of [ssh-rsa ] and the key, and goes on with the
    text after it. *)
Theorem hideSSHKeys_key_line pre key rest :
  Contains pre keyPrefix = false ->
  key <> [] -> forallb keyChar key = true -> startsKeyChar rest = false ->
  hideSSHKeys (pre ++ keyPrefix ++ key ++ rest) = pre ++ fakeKey ++ hideSSHKeys rest.
Proof.
  intros Hpre Hne Hkey Hrest. induction pre as [|c pre IH].
  - rewrite !app_nil_l.
    pose proof (keyMatch_line key rest Hne Hkey Hrest) as Hm.
    change (keyPrefix ++ key ++ rest)
      with (115%N :: (skipn 1 keyPrefix ++ key ++ rest)) in *.
    rewrite hideSSHKeys_cons, Hm. cbn [Nat.add]. f_equal.
    f_equal. rewrite app_assoc. apply drop_app_length'.
    rewrite length_app. reflexivity.
  - rewrite Contains_cons in Hpre. apply orb_false_iff in Hpre as [Hhd Htl].
    rewrite <- !app_comm_cons, hideSSHKeys_cons.
    destruct (matchLen sshKeyMatcher (c :: pre ++ keyPrefix ++ key ++ rest))
      as [m|] eqn:E.
    + assert (HasPrefix ((c :: pre) ++ keyPrefix ++ key ++ rest) keyPrefix = true)
        as Hp by (apply keyMatch_prefix; rewrite <- app_comm_cons, E; done).
      by rewrite keyPrefix_no_overlap in Hp.
    + by rewrite IH.
Qed.

Lemma matchList_shaped shape rs x : forall d n,
  shaped shape d = true ->
  matchList ((Atom <$> shape) ++ rs) (d ++ x) n = matchList rs x (n + length d).
Proof.
  induction shape as [|a shape IH]; intros [|c d] n H; try done.
  - simpl. by rewrite Nat.add_0_r.
  - cbn [shaped] in H. apply andb_true_iff in H as [Ha H].
    rewrite fmap_cons, <- !app_comm_cons, matchList_atom, Ha, IH by done.
    cbn [length]. f_equal. lia.
Qed.

Lemma shaped_length shape : forall d, shaped shape d = true -> length d = length shape.
Proof.
  induction shape as [|a shape IH]; intros [|c d] H; try done.
  cbn [shaped] in H. apply andb_true_iff in H as [_ H]. simpl. by rewrite IH.
Qed.

(** The greedy [+] of the fraction reads all the digits before the [Z]. *)
Lemma digitRun rest ds : forall n,
  forallb (atomMatch digit) ds = true ->
  matchList [Opt (Plus digit); Atom (Lit 90%N)] (ds ++ 90%N :: rest) n
  = Some (n + length ds + 1).
Proof.
  induction ds as [|c ds IH]; intros n H.
  - rewrite matchList_opt. simpl. f_equal. lia.
  - cbn [forallb] in H. apply andb_true_iff in H as [Hc H].
    rewrite matchList_opt, <- app_comm_cons, matchList_plus, Hc, IH by done.
    cbn [length]. f_equal. lia.
Qed.

Lemma dateMatch_timestamp d f rest :
  shaped dateTimeShape d = true -> fractionShaped f = true ->
  (f = [] -> digitsThenZ rest = false) ->
  matchLen dateMatcher (d ++ f ++ 90%N :: rest) = Some (19 + length f + 1).
Proof.
  intros Hd Hf Hrest. rewrite dateMatcher_items.
  change dateItems
    with ((Atom <$> dateTimeShape)
          ++ [Opt (Seq (Atom AnyChar) (Plus digit)); Atom (Lit 90%N)]).
  rewrite matchList_shaped by done.
  rewrite (shaped_length _ _ Hd). cbn [length dateTimeShape Nat.add].
  rewrite matchList_opt, matchList_seq.
  destruct f as [|c ds].
  - rewrite app_nil_l, matchList_atom. cbn [atomMatch N.eqb negb Pos.eqb].
    pose proof (digitsThenZ_spec rest 20) as Hs. rewrite Hrest in Hs by done.
    destruct (matchList [Plus digit; Atom (Lit 90%N)] rest 20); done.
  - cbn [fractionShaped] in Hf.
    apply andb_true_iff in Hf as [[Hc Hne]%andb_true_iff Hds].
    rewrite <- app_comm_cons, matchList_atom, Hc.
    destruct ds as [|c' ds]; [done|].
    cbn [forallb] in Hds. apply andb_true_iff in Hds as [Hc' Hds].
    rewrite <- app_comm_cons, matchList_plus, Hc', digitRun by done.
    cbn [length]. f_equal; lia.
Qed.

(** A date match has its [T] at the eleventh character. *)
Lemma dateMatch_T y : matchLen dateMatcher y <> None -> y !! 10 = Some 84%N.
Proof.
  rewrite dateMatcher_items. unfold dateItems.
  do 10 (destruct y as [|? y]; [done|]; rewrite matchList_atom;
         match goal with |- context [atomMatch ?a ?c] =>
           destruct (atomMatch a c); [|done] end).
  destruct y as [|c y]; [done|]. rewrite matchList_atom. cbn [atomMatch].
  destruct (N.eqb_spec c 84) as [->|]; done.
Qed.

Lemma shaped_no_T d j :
  shaped dateTimeShape d = true -> j < 10 -> d !! j <> Some 84%N.
Proof.
  intros Hd Hj. unfold dateTimeShape in Hd.
  do 10 (destruct d as [|? d]; [done|]; cbn [shaped] in Hd;
         apply andb_true_iff in Hd as [? Hd]).
  do 10 (destruct j as [|j]; [intros [= ->]; done|]). lia.
Qed.

Lemma elemb_false c l : elemb c l = false <-> c ∉ l.
Proof. rewrite <- elemb_true. by destruct (elemb c l). Qed.

(** No date starts in a text without [T] that is followed by a
    timestamp. *)
Lemma no_date_before pre d x :
  pre <> [] -> 84%N ∉ pre -> shaped dateTimeShape d = true ->
  matchLen dateMatcher (pre ++ d ++ x) = None.
Proof.
  intros Hne HT Hd.
  destruct (matchLen dateMatcher (pre ++ d ++ x)) as [m|] eqn:E; [|done].
  exfalso.
  assert (Hm : matchLen dateMatcher (pre ++ d ++ x) <> None) by by rewrite E.
  apply dateMatch_T in Hm.
  pose proof (shaped_length _ _ Hd) as Hl. cbn [length dateTimeShape] in Hl.
  destruct (decide (10 < length pre)) as [Hlt|Hge].
  - rewrite lookup_app_l in Hm by done. apply HT. by eapply list_elem_of_lookup_2.
  - rewrite lookup_app_r in Hm by lia. rewrite lookup_app_l in Hm by lia.
    apply (shaped_no_T d (10 - length pre)); [done| |done].
    destruct pre; [done|]. simpl in *. lia.
Qed.

(** X6.  A timestamp in a text is replaced as a whole: when the text before
    it has no [T], the timestamp has the shape [dddd-dd-ddTdd:dd:dd],
    an optional fraction (one character and digits) and a [Z], and, if it
    has no fraction, the text after it does not start with digits and [Z],
    [hideDates] keeps the text before the timestamp, puts
    [2001-02-03T04:05:06Z] in its place and goes on with the text after
    it. *)
Theorem hideDates_timestamp pre d f rest :
  elemb 84%N pre = false ->
  shaped dateTimeShape d = true -> fractionShaped f = true ->
  (f = [] -> digitsThenZ rest = false) ->
  hideDates (pre ++ d ++ f ++ 90%N :: rest) = pre ++ fakeDate ++ hideDates rest.
Proof.
  intros HT%elemb_false Hd Hf Hrest. induction pre as [|c pre IH].
  - rewrite !app_nil_l.
    pose proof (dateMatch_timestamp d f rest Hd Hf Hrest) as Hm.
    pose proof (shaped_length _ _ Hd) as Hl. cbn [length dateTimeShape] in Hl.
    destruct d as [|c d]; [done|]. rewrite <- app_comm_cons in *.
    rewrite hideDates_cons, Hm. cbn [Nat.add]. f_equal. f_equal.
    change (d ++ f ++ 90%N :: rest) with (d ++ f ++ [90%N] ++ rest).
    rewrite 2!app_assoc. apply drop_app_length'.
    rewrite !length_app. simpl in *. lia.
  - apply not_elem_of_cons in HT as [Hc HT].
    rewrite <- app_comm_cons, hideDates_cons.
    rewrite (app_comm_cons pre), no_date_before; [|done| |done].
    + rewrite <- app_comm_cons. by rewrite IH.
    + by apply not_elem_of_cons.
Qed.

(** ** Rewriting the subscription ID *)

Lemma HasPrefix_length x p : HasPrefix x p = true -> length p <= length x.
Proof. intros H%HasPrefix_app. rewrite H, length_app. lia. Qed.

Lemma replaceFrom_same a old s :
  replaceFrom (a :: old) (a :: old) 0 s = s.
Proof.
  assert (H : forall len s, length s <= len ->
                replaceFrom (a :: old) (a :: old) 0 s = s);
    [|by apply (H (length s))].
  clear s. induction len as [|len IH]; intros [|c s] Hlen; simpl in Hlen;
    try lia; try done.
  rewrite replaceFrom_cons. destruct (HasPrefix (c :: s) (a :: old)) eqn:E.
  - rewrite IH by (rewrite length_drop; lia).
    apply HasPrefix_app in E.
    cbn [length]. rewrite Nat.sub_succ, Nat.sub_0_r. symmetry. exact E.
  - by rewrite IH by lia.
Qed.

Lemma ReplaceAll_same s old : ReplaceAll s old old = s.
Proof.
  destruct old as [|a old]; [|apply replaceFrom_same].
  simpl. induction s as [|c s IH]; [done|]. simpl. by rewrite IH.
Qed.

(** A replacement by a text that is not longer does not lengthen, and one
    by a text that is not shorter does not shorten. *)
Lemma replaceFrom_length_le old new s :
  old <> [] -> length new <= length old ->
  length (replaceFrom old new 0 s) <= length s.
Proof.
  intros Hne Hlen.
  assert (H : forall len s, length s <= len ->
                length (replaceFrom old new 0 s) <= length s);
    [|by apply (H (length s))].
  clear s. induction len as [|len IH]; intros [|c s] Hs; simpl in Hs;
    try lia; try done.
  rewrite replaceFrom_cons. destruct (HasPrefix (c :: s) old) eqn:E.
  - apply HasPrefix_length in E. cbn [length] in E |- *.
    rewrite length_app.
    pose proof (IH (drop (length old - 1) s)) as H.
    rewrite length_drop in H. specialize (H ltac:(lia)).
    destruct old; [done|]. cbn [length] in *. lia.
  - cbn [length]. specialize (IH s). lia.
Qed.

Lemma replaceFrom_length_ge old new s :
  old <> [] -> length old <= length new ->
  length s <= length (replaceFrom old new 0 s).
Proof.
  intros Hne Hlen.
  assert (H : forall len s, length s <= len ->
                length s <= length (replaceFrom old new 0 s));
    [|by apply (H (length s))].
  clear s. induction len as [|len IH]; intros [|c s] Hs; simpl in Hs;
    try lia; try (simpl; lia).
  rewrite replaceFrom_cons. destruct (HasPrefix (c :: s) old) eqn:E.
  - apply HasPrefix_length in E. cbn [length] in E |- *.
    rewrite length_app.
    pose proof (IH (drop (length old - 1) s)) as H.
    rewrite length_drop in H. specialize (H ltac:(lia)).
    destruct old; [done|]. cbn [length] in *. lia.
  - cbn [length]. specialize (IH s). lia.
Qed.

(** A replacement that leaves unchanged a text in which [old] occurs
    replaces [old] by itself. *)
Lemma replaceFrom_fixed old new s :
  old <> [] -> replaceFrom old new 0 s = s -> Contains s old = true -> old = new.
Proof.
  intros Hne. induction s as [|c s IH].
  - by destruct old.
  - rewrite replaceFrom_cons, Contains_cons.
    destruct (HasPrefix (c :: s) old) eqn:E.
    + intros H _. apply HasPrefix_app in E.
      assert (Hdrop : drop (length old) (c :: s) = drop (length old - 1) s).
      { destruct old; [done|]. cbn [length]. by rewrite Nat.sub_succ, Nat.sub_0_r. }
      rewrite Hdrop in E. rewrite E in H.
      set (t := drop (length old - 1) s) in *.
      apply app_eq_inv in H as [(k & Hk & Ht)|(k & Hk & Ht)].
      * assert (length old <= length new) as Hle by (rewrite Hk, length_app; lia).
        pose proof (replaceFrom_length_ge old new t Hne Hle) as Hl.
        apply (f_equal length) in Ht. rewrite length_app in Ht.
        destruct k; [by rewrite app_nil_r in Hk|simpl in Ht; lia].
      * assert (length new <= length old) as Hle by (rewrite Hk, length_app; lia).
        pose proof (replaceFrom_length_le old new t Hne Hle) as Hl.
        apply (f_equal length) in Ht. rewrite length_app in Ht.
        destruct k; [by rewrite app_nil_r in Hk|simpl in Ht; lia].
    + intros [= H] Hc. by apply IH.
Qed.

Lemma intersperseAll_length new s :
  length (intersperseAll new s) = length s + (length s + 1) * length new.
Proof.
  induction s as [|c s IH]; simpl; [lia|].
  rewrite length_app. simpl. rewrite IH. lia.
Qed.

Lemma hideSubID_unchanged sub s : Contains s sub = false -> hideSubID sub s = s.
Proof. apply ReplaceAll_absent. Qed.

(** X7.  The rewriting of the subscription ID leaves a text unchanged
    exactly when the subscription ID does not occur in the text or is the
    nil UUID itself (as it is in replay mode). *)
Theorem hideSubID_fixed sub s :
  hideSubID sub s = s <-> Contains s sub = false \/ sub = uuidNil.
Proof.
  split.
  - intros H. destruct (Contains s sub) eqn:E; [right|by left].
    unfold hideSubID, ReplaceAll in H. destruct sub as [|a sub].
    + apply (f_equal length) in H. rewrite intersperseAll_length in H.
      simpl in H. lia.
    + by apply (replaceFrom_fixed _ _ s).
  - intros [H| ->]; [by apply ReplaceAll_absent|apply ReplaceAll_same].
Qed.

(** X8.  For a subscription ID that cannot overlap the nil UUID, rewriting
    a text twice gives what rewriting it once gives. *)
Theorem hideSubID_idempotent sub s :
  apart sub uuidNil = true ->
  hideSubID sub (hideSubID sub s) = hideSubID sub s.
Proof.
  intros Hap. apply ReplaceAll_absent. by apply ReplaceAll_free.
Qed.

(** ** ARM ids and the subscription ID *)

(** A character that does not occur in [old] separates the replacements. *)
Section Separator.
Context (old new : gostring) (c : rune).
Context (Hne : old <> []) (Hc : c ∉ old).

Lemma HasPrefix_sep x y : HasPrefix (x ++ c :: y) old = HasPrefix x old.
Proof.
  revert x. induction old as [|p q IH]; [done|]. intros x.
  apply not_elem_of_cons in Hc as [Hcp Hcq].
  destruct x as [|a x]; simpl.
  - destruct (N.eqb_spec c p); done.
  - destruct q as [|p' q']; [done|]. by rewrite IH.
Qed.

Lemma replaceFrom_sep x y :
  replaceFrom old new 0 (x ++ c :: y)
  = replaceFrom old new 0 x ++ c :: replaceFrom old new 0 y.
Proof.
  assert (H : forall len x, length x <= len ->
            replaceFrom old new 0 (x ++ c :: y)
            = replaceFrom old new 0 x ++ c :: replaceFrom old new 0 y);
    [|by apply (H (length x))].
  clear x. induction len as [|len IH]; intros [|a x] Hlen; simpl in Hlen; try lia.
  - rewrite app_nil_l, replaceFrom_cons.
    rewrite <- (app_nil_l (c :: y)), HasPrefix_sep. by destruct old.
  - rewrite app_nil_l, replaceFrom_cons.
    rewrite <- (app_nil_l (c :: y)), HasPrefix_sep. by destruct old.
  - rewrite <- app_comm_cons, !replaceFrom_cons.
    rewrite app_comm_cons, HasPrefix_sep.
    destruct (HasPrefix (a :: x) old) eqn:E.
    + apply HasPrefix_length in E. cbn [length] in E.
      rewrite drop_app_le by lia. rewrite IH by (rewrite length_drop; lia).
      by rewrite <- app_assoc.
    + by rewrite IH by lia.
Qed.

End Separator.

Lemma replaceFrom_self a q new : replaceFrom (a :: q) new 0 (a :: q) = new.
Proof.
  rewrite replaceFrom_cons.
  rewrite <- (app_nil_r (a :: q)) at 1. rewrite HasPrefix_app_r.
  cbn [length]. rewrite Nat.sub_succ, Nat.sub_0_r, drop_all. apply app_nil_r.
Qed.

Lemma MakeARMId_Done tc resourceGroup provider params id :
  MakeARMId tc resourceGroup provider params = Done id <->
  length params <> 0 /\ length params `mod` 2 = 0
  /\ id = str "/subscriptions/" ++ AzureSubscription tc
          ++ str "/resourceGroups/" ++ resourceGroup
          ++ str "/providers/" ++ provider
          ++ str "/" ++ Join params (str "/").
Proof.
  unfold MakeARMId. case_bool_decide as H0; [split; [done|tauto]|].
  case_bool_decide as H2; [split; [done|tauto]|].
  rewrite <- (app_nil_r (Join params (str "/"))) at 2.
  split.
  - intros [= <-]. done.
  - intros (_ & _ & ->). done.
Qed.

Section SubscriptionID.
Context (sub : gostring).
Context (Huuid : forallb uuidChar sub = true) (Hlen : 3 <= length sub).

Lemma sub_uuidChar c : c ∈ sub -> uuidChar c = true.
Proof.
  intros Hin. by apply (proj1 (forallb_forall _ _) Huuid), list_elem_of_In.
Qed.

Lemma sub_nonempty : sub <> [].
Proof. destruct sub; [simpl in Hlen; lia|done]. Qed.

Lemma slash_not_in_sub : 47%N ∉ sub.
Proof. by intros H%sub_uuidChar. Qed.

(** The words of the format have no three characters of a UUID in a row. *)
Ltac no_uuid_run :=
  cbv [str rn N_of_ascii N_of_digits N.add N.mul Pos.add Pos.mul Pos.succ];
  destruct sub as [|a [|b [|c q]]]; try (simpl in Hlen; lia);
  cbn [forallb] in Huuid;
  apply andb_true_iff in Huuid as [Ha Huuid];
  apply andb_true_iff in Huuid as [Hb Huuid];
  apply andb_true_iff in Huuid as [Hc _];
  cbn [Contains HasPrefix];
  repeat match goal with
    | |- context [N.eqb ?p ?v] =>
        destruct (N.eqb_spec p v); [subst; try done|]; cbn [andb orb]
    end; done.

Lemma subscriptions_free : Contains (str "subscriptions") sub = false.
Proof. no_uuid_run. Qed.

Lemma resourceGroups_free : Contains (str "resourceGroups") sub = false.
Proof. no_uuid_run. Qed.

Lemma providers_free : Contains (str "providers") sub = false.
Proof. no_uuid_run. Qed.

Lemma hideSubID_replaceFrom s : hideSubID sub s = replaceFrom sub uuidNil 0 s.
Proof. unfold hideSubID, ReplaceAll. pose proof sub_nonempty. by destruct sub. Qed.

Lemma hideSubID_sep x y :
  hideSubID sub (x ++ 47%N :: y) = hideSubID sub x ++ 47%N :: hideSubID sub y.
Proof.
  rewrite !hideSubID_replaceFrom.
  apply replaceFrom_sep; [apply sub_nonempty|apply slash_not_in_sub].
Qed.

Lemma hideSubID_Join params :
  hideSubID sub (Join params (str "/")) = Join (hideSubID sub <$> params) (str "/").
Proof.
  induction params as [|e [|e' rest] IH].
  - by rewrite hideSubID_replaceFrom.
  - done.
  - change (Join (e :: e' :: rest) (str "/"))
      with (e ++ 47%N :: Join (e' :: rest) (str "/")).
    by rewrite hideSubID_sep, IH.
Qed.

Lemma hideSubID_self : hideSubID sub sub = uuidNil.
Proof.
  rewrite hideSubID_replaceFrom. pose proof sub_nonempty.
  destruct sub; [done|]. apply replaceFrom_self.
Qed.

Lemma hideSubID_ARMId resourceGroup provider suffix :
  hideSubID sub (str "/subscriptions/" ++ sub
                 ++ str "/resourceGroups/" ++ resourceGroup
                 ++ str "/providers/" ++ provider ++ str "/" ++ suffix)
  = str "/subscriptions/" ++ uuidNil
    ++ str "/resourceGroups/" ++ hideSubID sub resourceGroup
    ++ str "/providers/" ++ hideSubID sub provider
    ++ str "/" ++ hideSubID sub suffix.
Proof.
  change (str "/subscriptions/" ++ sub
          ++ str "/resourceGroups/" ++ resourceGroup
          ++ str "/providers/" ++ provider ++ str "/" ++ suffix)
    with ([] ++ 47%N :: (str "subscriptions" ++ 47%N :: (sub ++ 47%N ::
          (str "resourceGroups" ++ 47%N :: (resourceGroup ++ 47%N ::
          (str "providers" ++ 47%N :: (provider ++ 47%N :: suffix))))))).
  rewrite (hideSubID_sep []), (hideSubID_sep (str "subscriptions")),
    (hideSubID_sep sub), (hideSubID_sep (str "resourceGroups")),
    (hideSubID_sep resourceGroup), (hideSubID_sep (str "providers")),
    (hideSubID_sep provider).
  rewrite hideSubID_self.
  rewrite (hideSubID_unchanged sub (str "subscriptions")) by apply subscriptions_free.
  rewrite (hideSubID_unchanged sub (str "resourceGroups")) by apply resourceGroups_free.
  rewrite (hideSubID_unchanged sub (str "providers")) by apply providers_free.
  rewrite (hideSubID_replaceFrom []). reflexivity.
Qed.

End SubscriptionID.

(** X12.  Rewriting the subscription ID in an ARM id gives the ARM id that
    replay builds: for a subscription ID of at least three characters, all
    of them hexadecimal digits or [-], the ARM id made from a context that
    holds this subscription ID is rewritten by [hideSubID] to the ARM id
    made, from the rewritten resource group, provider and parameters, by a
    context that holds the nil UUID. *)
Theorem MakeARMId_hideSubID tc tc' resourceGroup provider params id :
  forallb uuidChar (AzureSubscription tc) = true ->
  3 <= length (AzureSubscription tc) ->
  AzureSubscription tc' = uuidNil ->
  MakeARMId tc resourceGroup provider params = Done id ->
  MakeARMId tc' (hideSubID (AzureSubscription tc) resourceGroup)
    (hideSubID (AzureSubscription tc) provider)
    (hideSubID (AzureSubscription tc) <$> params)
  = Done (hideSubID (AzureSubscription tc) id).
Proof.
  intros Huuid Hlen Hnil (H0 & H2 & ->)%MakeARMId_Done.
  apply MakeARMId_Done. rewrite length_fmap. split; [done|]. split; [done|].
  rewrite hideSubID_ARMId, hideSubID_Join, Hnil by done. done.
Qed.


(** ** The save filter on shared values and on the bodies *)

(** X9.  The loop of the save filter over the headers of a map does not
    depend on the order in which [range] walks the map: two runs that walk
    the same map in different orders leave the same backing arrays. *)
Theorem header_loops_order_independent sub h order1 order2 arrs :
  rangeHeaders h order1 -> rangeHeaders h order2 ->
  hideSubIDHeaders sub order1 arrs = hideSubIDHeaders sub order2 arrs.
Proof.
  intros H1 H2.
  by rewrite (hideSubIDHeaders_order sub h order1),
             (hideSubIDHeaders_order sub h order2).
Qed.

(** X10.  For a subscription ID that cannot overlap the nil UUID, sharing
    does no harm: the save filter leaves every cell that a value slice of a
    header of the interaction holds as one [hideSubID] leaves it, however
    many slices hold it, and it leaves every other cell of the store as it
    was. *)
Theorem saveFilter_rewrites_once sub i s s' it a j :
  apart sub uuidNil = true ->
  interactions s !! i = Some it -> saveFilter sub i s = Done s' ->
  cell s' a j
  = if bool_decide (0 < rewritten s it a j) then hideSubID sub <$> cell s a j
    else cell s a j.
Proof.
  intros Hap Hi Hs. rewrite (saveFilter_cell sub i s s' it a j Hi Hs).
  destruct (rewritten s it a j) as [|k].
  - rewrite bool_decide_false by lia. by destruct (cell s a j).
  - rewrite bool_decide_true by lia. destruct (cell s a j) as [c|]; [|done].
    cbn [fmap option_fmap option_map]. f_equal. by apply hideSubID_iter.
Qed.

(** X11.  In the request body and in the response body that the save filter
    leaves, the key pattern matches nowhere, and the date pattern matches
    only where the replacement date starts. *)
Theorem saveFilter_bodies_hidden sub i s s' it' pre post :
  saveFilter sub i s = Done s' -> interactions s' !! i = Some it' ->
  reqBody (Request_ it') = pre ++ post \/ respBody (Response_ it') = pre ++ post ->
  matchLen sshKeyMatcher post = None
  /\ (matchLen dateMatcher post <> None -> exists post', post = fakeDate ++ post').
Proof.
  intros Hs Hi'. destruct (saveFilter_inv _ _ _ _ Hs) as [it Hi].
  rewrite (saveFilter_interactions sub i s s' it Hi Hs), lookup_insert_eq in Hi'.
  injection Hi' as <-.
  cbn [saved Request_ Response_ reqBody respBody]. unfold hideRecordingData.
  intros [H|H]; (split;
    [apply noKey_None;
     by apply (proj1 (everywhere_suffix noKey _) (hideSSHKeys_noKey _) pre post H)
    |apply atFakeDate_spec;
     by apply (proj1 (everywhere_suffix atFakeDate _)
                 (hideSSHKeys_atFakeDate _ (hideDates_atFakeDate _)) pre post H)]).
Qed.

(** ** The recorder *)

Section RecorderFurther.
Context (COUNT_HEADER : gostring) (CanonicalMIMEHeaderKey : gostring -> gostring).
Context {E Authorizer RoundTripper : Type}.
Context (New : gostring -> res E Recorder).
Context (NewAsMode : gostring -> Mode -> option RoundTripper -> res E Recorder).
Context (getAuthorizer : res E (option Authorizer * gostring)).

Abbreviation requested cassetteName recordReplay :=
  (if recordReplay : bool then New cassetteName
   else NewAsMode cassetteName ModeDisabled None).
Abbreviation createRecorder' :=
  (createRecorder COUNT_HEADER CanonicalMIMEHeaderKey New NewAsMode getAuthorizer).

(** X13.  [createRecorder] fails in exactly two ways: when the recorder
    cannot be created, with that error wrapped as [creating recorder]; and
    when the recorder does not replay and [getAuthorizer] fails, with that
    error as it is.  When it succeeds, the recorder keeps its mode, has
    the body-checking matcher, and has, after the save filters it had, the
    save filter for the subscription ID that is returned; in replay mode
    the authorizer is nil and the subscription ID is the nil UUID, whatever
    [getAuthorizer] would return, and otherwise both are those of
    [getAuthorizer]. *)
Theorem createRecorder_outcome cassetteName recordReplay :
  (forall err,
     createRecorder' cassetteName recordReplay = Err err <->
     (exists e, requested cassetteName recordReplay = Err e
                /\ err = Wrapf (bare e) "creating recorder")
     \/ (exists r e, requested cassetteName recordReplay = Ok r
                     /\ mode r <> ModeReplaying
                     /\ getAuthorizer = Err e /\ err = bare e))
  /\ (forall authorizer subscriptionID r',
        createRecorder' cassetteName recordReplay
        = Ok (authorizer, subscriptionID, r') ->
        exists r, requested cassetteName recordReplay = Ok r
                  /\ mode r' = mode r
                  /\ Matcher r' = matcher COUNT_HEADER CanonicalMIMEHeaderKey
                  /\ SaveFilters r' = SaveFilters r ++ [saveFilter subscriptionID]
                  /\ (if bool_decide (mode r = ModeReplaying)
                      then authorizer = None /\ subscriptionID = uuidNil
                      else getAuthorizer = Ok (authorizer, subscriptionID))).
Proof.
  unfold createRecorder. split.
  - intros err. destruct (requested cassetteName recordReplay) as [r|e|m].
    + destruct (mode r) eqn:Hm; cbn [orb bool_decide decide_rel Mode_eq_dec].
      * destruct getAuthorizer as [[a sub]|e|m]; split; try done.
        -- intros [(e & ? & _)|(r0 & e & _ & _ & ? & _)]; done.
        -- intros [= <-]. right. exists r, e. by rewrite Hm.
        -- intros [(e0 & ? & _)|(r0 & e0 & _ & _ & [= <-] & ->)]; done.
        -- intros [(e & ? & _)|(r0 & e & _ & _ & ? & _)]; done.
      * split; [done|].
        intros [(e & ? & _)|(r0 & e & [= <-] & Hne & _)]; done.
      * destruct getAuthorizer as [[a sub]|e|m]; split; try done.
        -- intros [(e & ? & _)|(r0 & e & _ & _ & ? & _)]; done.
        -- intros [= <-]. right. exists r, e. by rewrite Hm.
        -- intros [(e0 & ? & _)|(r0 & e0 & _ & _ & [= <-] & ->)]; done.
        -- intros [(e & ? & _)|(r0 & e & _ & _ & ? & _)]; done.
    + split.
      * intros [= <-]. left. by exists e.
      * intros [(e0 & [= <-] & ->)|(r0 & e0 & ? & _)]; done.
    + split; [done|]. intros [(e & ? & _)|(r0 & e & ? & _)]; done.
  - intros a sub r'.
    destruct (requested cassetteName recordReplay) as [r|e|m]; [|done|done].
    destruct (mode r) eqn:Hm; cbn [orb bool_decide decide_rel Mode_eq_dec].
    + destruct getAuthorizer as [[a0 sub0]|e|m]; [|done|done].
      intros [= <- <- <-]. exists r. rewrite Hm. done.
    + intros [= <- <- <-]. exists r. rewrite Hm. done.
    + destruct getAuthorizer as [[a0 sub0]|e|m]; [|done|done].
      intros [= <- <- <-]. exists r. rewrite Hm. done.
Qed.

(** X14.  What was recorded is found again in replay.  A request matches
    the request of an interaction as the save filter left it, and the
    matcher leaves the request as it was, when the request has the method
    of the recorded request, its URL is the recorded URL rewritten by
    [hideSubID], its count header is that of the saved request, and its
    body, which can be read, equals the rewritten recorded body up to
    [hideRecordingData], that is, up to dates and keys. *)
Theorem replay_matches_saved sub i s s' it it' (t : store) (r : HttpRequest) b :
  interactions s !! i = Some it ->
  saveFilter sub i s = Done s' -> interactions s' !! i = Some it' ->
  Method r = reqMethod (Request_ it) ->
  URL r = hideSubID sub (reqURL (Request_ it)) ->
  Get CanonicalMIMEHeaderKey t (Header_ r) COUNT_HEADER
  = Get CanonicalMIMEHeaderKey t (reqHeaders (Request_ it')) COUNT_HEADER ->
  Body r = Some (NopCloser b) ->
  hideRecordingData b = hideRecordingData (hideSubID sub (reqBody (Request_ it))) ->
  matcher COUNT_HEADER CanonicalMIMEHeaderKey t r (Request_ it') = Done (true, r).
Proof.
  intros Hi Hs Hi' Hm Hu Hh Hb Hd.
  rewrite (saveFilter_interactions sub i s s' it Hi Hs), lookup_insert_eq in Hi'.
  injection Hi' as <-. unfold matcher, DefaultMatcher.
  cbn [saved Request_ reqMethod reqURL reqBody reqHeaders] in *.
  rewrite !bool_decide_true by done. cbn [andb negb].
  rewrite Hb. cbn [ReadFrom NopCloser failing pending].
  rewrite (bool_decide_true (hideRecordingData b = _)) by done.
  rewrite orb_true_r. destruct r. simpl in *. by subst.
Qed.

End RecorderFurther.

(** * Further properties of the test-case injection stage *)

Section StageFurther.
Context {TestCase IdentifierFactory : Type}.
Context (NewJSONSerializationTestCase :
           TypeName -> Type_ TestCase -> IdentifierFactory -> TestCase).

Abbreviation factory := (@objectSerializationTestCaseFactory TestCase IdentifierFactory).
Abbreviation shipped idf :=
  (makeObjectSerializationTestCaseFactory NewJSONSerializationTestCase idf).
Implicit Types (s : factory) (d : TypeDefinition TestCase)
  (order : list (TypeDefinition TestCase)) (types : Types TestCase).

Lemma rangeLoop_Panicked s order : forall result errs m,
  rangeLoop s result errs order = Panicked m <->
  exists pre d post, order = pre ++ d :: post /\ noPanic s pre
                     /\ AddTestTo s d = Panic m.
Proof.
  induction order as [|d rest IH]; intros result errs m.
  - split; [done|]. intros (pre & d & post & H & _). by destruct pre.
  - cbn [rangeLoop]. unfold loopBody.
    destruct (AddTestTo s d) as [u|e|m'] eqn:E; cbn [fst snd].
    + rewrite IH. split.
      * intros (pre & d' & post & -> & Hpre & Hd').
        exists (d :: pre), d', post. split; [done|]. split; [|done].
        constructor; [by rewrite E|done].
      * intros (pre & d' & post & Heq & Hpre & Hd').
        destruct pre as [|d0 pre]; simpl in Heq; injection Heq as <- ->.
        -- by rewrite E in Hd'.
        -- apply Forall_cons in Hpre as [_ Hpre]. by exists pre, d', post.
    + rewrite IH. split.
      * intros (pre & d' & post & -> & Hpre & Hd').
        exists (d :: pre), d', post. split; [done|]. split; [|done].
        constructor; [by rewrite E|done].
      * intros (pre & d' & post & Heq & Hpre & Hd').
        destruct pre as [|d0 pre]; simpl in Heq; injection Heq as <- ->.
        -- by rewrite E in Hd'.
        -- apply Forall_cons in Hpre as [_ Hpre]. by exists pre, d', post.
    + split.
      * intros [= <-]. exists [], d, rest. split; [done|]. split; [constructor|done].
      * intros (pre & d' & post & Heq & Hpre & Hd').
        destruct pre as [|d0 pre]; simpl in Heq; injection Heq as <- ->.
        -- rewrite E in Hd'. by injection Hd' as ->.
        -- apply Forall_cons in Hpre as [Hd _]. by destruct (Hd m').
Qed.

(** X15.  The stage recovers from no panic: a run panics exactly when the
    attempt on some Declaration panics, and then with the panic of the first
    such Declaration in the order of the run, whatever failures were
    collected before it. *)
Theorem stage_panics_at_first_panic s ctx types order m :
  runStage s ctx types order = Panics m <->
  exists pre d post, order = pre ++ d :: post /\ noPanic s pre
                     /\ AddTestTo s d = Panic m.
Proof.
  rewrite <- (rangeLoop_Panicked s order ∅ [] m). unfold runStage.
  destruct (rangeLoop s ∅ [] order) as [[result errs]|m'].
  - by case_bool_decide.
  - split; by intros [= ->].
Qed.

Lemma insertAll_wellFormed (us : list (TypeDefinition TestCase)) :
  forall (m : Types TestCase), wellFormed m ->
  wellFormed (foldl (fun m u => <[Name u := u]> m) m us).
Proof.
  induction us as [|u us IH]; intros m Hm; [done|].
  simpl. apply IH. intros k d. destruct (decide (Name u = k)) as [<-|Hne].
  - rewrite lookup_insert_eq. by intros [= <-].
  - rewrite lookup_insert_ne by done. apply Hm.
Qed.

Lemma insertAll_elem (us : list (TypeDefinition TestCase)) :
  forall (m : Types TestCase) k u,
  foldl (fun m u => <[Name u := u]> m) m us !! k = Some u ->
  u ∈ us \/ m !! k = Some u.
Proof.
  induction us as [|v us IH]; intros m k u H; [by right|].
  simpl in H. apply IH in H as [H|H]; [left; by right|].
  destruct (decide (Name v = k)) as [<-|Hne].
  - rewrite lookup_insert_eq in H. injection H as <-. left. by left.
  - rewrite lookup_insert_ne in H by done. by right.
Qed.

(** X16.  A graph that the stage returns is well-formed, whether the input
    graph was or not: it comes without an error, every Declaration in it is
    stored under its own Identifier, and it is the updated copy of a
    Declaration of the run that had this Identifier. *)
Theorem stage_output_wellFormed s ctx types order g err :
  runStage s ctx types order = Returns (Some g) err ->
  err = None
  /\ wellFormed g
  /\ (forall k u, g !! k = Some u ->
        exists d, d ∈ order /\ AddTestTo s d = Ok u /\ Name d = k).
Proof.
  intros Hrun.
  assert (Hnp := runStage_Returns_noPanic _ _ _ _ _ _ Hrun).
  rewrite runStage_spec in Hrun by done.
  destruct (failures s order) as [|e errs]; [|done].
  injection Hrun as <- <-. split; [done|].
  assert (Hwf : wellFormed (foldl (fun m u => <[Name u := u]> m)
                              (∅ : Types TestCase) (updates s order))).
  { apply insertAll_wellFormed. intros k d. by rewrite lookup_empty. }
  split; [done|].
  intros k u Hk. pose proof (Hwf k u Hk) as Hname.
  apply insertAll_elem in Hk as [Hin|Hk]; [|by rewrite lookup_empty in Hk].
  unfold updates in Hin. apply list_elem_of_omap in Hin as (d & Hd & Hs).
  exists d. split; [done|].
  destruct (AddTestTo s d) as [u'| |] eqn:E; simpl in Hs; [|done|done].
  injection Hs as ->. split; [done|].
  by rewrite <- (AddTestTo_Name _ _ _ E).
Qed.


End StageFurther.


(** * The further properties on concrete inputs *)

Section FurtherExamples.
Import Examples.

(** X1 on the recorded body: no key starts at the replacement of its
    key. *)
Lemma hideSSHKeys_hides_keys_witness :
  hideSSHKeys recordedBody
  = str "created 2020-01-01T10:00:00.5Z with " ++ str "ssh-rsa {KEY} end"
  /\ matchLen sshKeyMatcher (str "ssh-rsa {KEY} end") = None.
Proof.
  assert (H : hideSSHKeys recordedBody
              = str "created 2020-01-01T10:00:00.5Z with " ++ str "ssh-rsa {KEY} end")
    by reflexivity.
  split; [exact H|]. exact (hideSSHKeys_hides_keys _ _ _ H).
Defined.


(** X3 on the recorded body. *)
Lemma hideRecordingData_hides_witness :
  hideRecordingData recordedBody
  = str "created " ++ str "2001-02-03T04:05:06Z with ssh-rsa {KEY} end"
  /\ matchLen sshKeyMatcher (str "2001-02-03T04:05:06Z with ssh-rsa {KEY} end") = None.
Proof.
  assert (H : hideRecordingData recordedBody
              = str "created " ++ str "2001-02-03T04:05:06Z with ssh-rsa {KEY} end")
    by reflexivity.
  split; [exact H|]. exact (proj1 (hideRecordingData_hides _ _ _ H)).
Defined.

(** X4 on a body without dates and keys. *)
Lemma hideRecordingData_unchanged_witness :
  hideRecordingData plainBody = plainBody.
Proof.
  apply hideRecordingData_unchanged. intros pre post Hs. split.
  - refine (nowhere_suffix dateMatcher plainBody _ pre post Hs). by vm_compute.
  - refine (nowhere_suffix sshKeyMatcher plainBody _ pre post Hs). by vm_compute.
Defined.

(** X5 on a key between two words. *)
Lemma hideSSHKeys_key_line_witness :
  hideSSHKeys (str "key: " ++ keyPrefix ++ keyText ++ str " end")
  = str "key: " ++ fakeKey ++ hideSSHKeys (str " end").
Proof.
  apply hideSSHKeys_key_line; [reflexivity|discriminate|reflexivity|reflexivity].
Defined.

(** X6 on a timestamp with a fraction. *)
Lemma hideDates_timestamp_witness :
  hideDates (str "created " ++ str "2020-01-01T10:00:00" ++ str ".5"
             ++ 90%N :: str " end")
  = str "created " ++ fakeDate ++ hideDates (str " end").
Proof.
  apply hideDates_timestamp; [reflexivity|reflexivity|reflexivity|discriminate].
Defined.

(** X8 on a URL that holds the subscription ID. *)
Lemma hideSubID_idempotent_witness :
  apart subB uuidNil = true
  /\ hideSubID subB (hideSubID subB urlB) = hideSubID subB urlB.
Proof.
  split; [reflexivity|]. apply hideSubID_idempotent. reflexivity.
Defined.

Lemma headerXY_values : (map_to_list headerXY).*2 ≡ₚ [valuesX; sharedValues].
Proof.
  unfold headerXY. rewrite map_to_list_insert, map_to_list_singleton; [done|].
  by apply lookup_singleton_ne.
Qed.

(** X9 on the two orders of a map with two headers. *)
Lemma header_loops_order_independent_witness :
  hideSubIDHeaders subB [valuesX; sharedValues] (arrays storeB)
  = hideSubIDHeaders subB [sharedValues; valuesX] (arrays storeB).
Proof.
  apply (header_loops_order_independent subB (Some headerXY)).
  - unfold rangeHeaders. simpl. by rewrite headerXY_values.
  - unfold rangeHeaders. simpl. rewrite headerXY_values. apply perm_swap.
Defined.

(** X10 on the interaction of [storeB]: the value that three headers share
    is rewritten as by one pass, and the value of the [Authorization]
    header, in which the subscription ID does not occur, is as it was. *)
Lemma saveFilter_rewrites_once_witness :
  exists s',
    saveFilter subB 1%positive storeB = Done s'
    /\ cell s' 5%positive 0 = Some (hideSubID subB urlB)
    /\ cell s' 4%positive 0 = Some (str "Bearer token").
Proof.
  assert (Hap : apart subB uuidNil = true) by reflexivity.
  eexists. split; [reflexivity|].
  rewrite !(saveFilter_rewrites_once subB 1%positive storeB _ interactionB _ _
              Hap eq_refl eq_refl).
  split; reflexivity.
Defined.

(** X11 on the request body of the interaction of [storeB]. *)
Lemma saveFilter_bodies_hidden_witness :
  exists s' it',
    saveFilter subB 1%positive storeB = Done s'
    /\ interactions s' !! 1%positive = Some it'
    /\ reqBody (Request_ it')
       = str "created 2001-02-03T04:05:06Z with " ++ str "ssh-rsa {KEY} end"
    /\ matchLen sshKeyMatcher (str "ssh-rsa {KEY} end") = None.
Proof.
  eexists _, _. split; [reflexivity|]. split; [reflexivity|].
  assert (H : hideRecordingData (hideSubID subB recordedBody)
              = str "created 2001-02-03T04:05:06Z with " ++ str "ssh-rsa {KEY} end")
    by reflexivity.
  split; [exact H|].
  exact (proj1 (saveFilter_bodies_hidden subB 1%positive storeB _ _ _ _
                  eq_refl eq_refl (or_introl H))).
Defined.

(** X12 on one resource kind and name. *)
Lemma MakeARMId_hideSubID_witness :
  MakeARMId tcReplay (hideSubID subB (str "rg1")) (hideSubID subB (str "Microsoft.Storage"))
            (hideSubID subB <$> [str "storageAccounts"; str "acct1"])
  = Done (hideSubID subB
            (str ("/subscriptions/1b2c3d4e-1111-2222-3333-456789abcdef"
                  ++ "/resourceGroups/rg1/providers/Microsoft.Storage"
                  ++ "/storageAccounts/acct1")))
  /\ hideSubID subB
       (str ("/subscriptions/1b2c3d4e-1111-2222-3333-456789abcdef"
             ++ "/resourceGroups/rg1/providers/Microsoft.Storage"
             ++ "/storageAccounts/acct1"))
     = str ("/subscriptions/00000000-0000-0000-0000-000000000000"
            ++ "/resourceGroups/rg1/providers/Microsoft.Storage"
            ++ "/storageAccounts/acct1").
Proof.
  split; [|by vm_compute].
  refine (MakeARMId_hideSubID tcA tcReplay (str "rg1") (str "Microsoft.Storage")
            [str "storageAccounts"; str "acct1"] _ _ _ _ _).
  - by vm_compute.
  - simpl. lia.
  - reflexivity.
  - by vm_compute.
Defined.

(** X13 without credentials: a disabled recorder needs them, a replaying
    one does not. *)
Lemma createRecorder_outcome_witness :
  createRecorder countHeader id newReplaying newAsMode noCredentials
    (str "recordings/Test_X") false
  = Err (bare "AZURE_SUBSCRIPTION_ID is not set")
  /\ exists r,
       createRecorder countHeader id newReplaying newAsMode noCredentials
         (str "recordings/Test_X") true
       = Ok (None, uuidNil, r)
       /\ SaveFilters r = [saveFilter uuidNil].
Proof.
  destruct (createRecorder_outcome countHeader id newReplaying newAsMode
              noCredentials (str "recordings/Test_X") false) as [Herr _].
  destruct (createRecorder_outcome countHeader id newReplaying newAsMode
              noCredentials (str "recordings/Test_X") true) as [_ Hok].
  split.
  - apply Herr. right.
    exists (blankRecorder ModeDisabled), "AZURE_SUBSCRIPTION_ID is not set". done.
  - eexists. split; [reflexivity|].
    destruct (Hok _ _ _ eq_refl) as (r & [= <-] & _ & _ & Hf & _). exact Hf.
Defined.

(** X14 on the interaction of [storeB] and a later request with another
    date and another key. *)
Lemma replay_matches_saved_witness :
  exists s' it',
    saveFilter subB 1%positive storeB = Done s'
    /\ interactions s' !! 1%positive = Some it'
    /\ matcher countHeader id s' replayRequest (Request_ it')
       = Done (true, replayRequest).
Proof.
  eexists _, _. split; [reflexivity|]. split; [reflexivity|].
  apply (replay_matches_saved countHeader id subB 1%positive storeB _
           interactionB _ _ replayRequest replayedBody eq_refl eq_refl eq_refl).
  - reflexivity.
  - by vm_compute.
  - by vm_compute.
  - reflexivity.
  - by vm_compute.
Defined.

(** X16 on the graph that the stage returns for [graphABC]. *)
Lemma stage_output_wellFormed_witness :
  wellFormed (withTests newTestCase tt <$> graphABC).
Proof.
  exact (proj1 (proj2 (stage_output_wellFormed
                         (makeObjectSerializationTestCaseFactory newTestCase tt)
                         live graphABC [objectA; enumB; enumC] _ _
                         (runStage_shipped newTestCase tt live graphABC _
                            graphABC_wellFormed graphABC_order_1)))).
Defined.


End FurtherExamples.
